(** * knGraph: extraction and resolution pipeline

    A shallow embedding of [parser.py], [models.py] and the call-resolution
    step of [ingester.py], followed by the properties of the pipeline:
    scope attribution of calls, candidate names, import edges, the
    name->id table, tolerance of unparsable files and call resolution. *)

From Stdlib Require Import Ascii String ZArith.
From Equations Require Import Equations.
From stdpp Require Import gmap strings list fin_maps.

Open Scope string_scope.
Open Scope list_scope.
Set Warnings "-register-all".

(** ** Strings: the Python string operations the code uses *)

(** [f"{a}.{b}"] and friends are written with [+:+]. *)

(** Python truthiness of a [str]: only the empty string is falsy. *)
Definition str_truthy (s : string) : bool :=
  match s with
  | EmptyString => false
  | String _ _ => true
  end.

(** Python truthiness of an [Optional[str]]: [None] and the empty string
    are falsy. *)
Definition opt_truthy (o : option string) : bool :=
  match o with
  | None => false
  | Some s => str_truthy s
  end.

(** [s.split(c)] for a one-character separator: every occurrence of the
    separator cuts, empty pieces are kept, and the result is never empty. *)
Fixpoint split (c : ascii) (s : string) : list string :=
  match s with
  | EmptyString => [EmptyString]
  | String a s' =>
      if Ascii.eqb a c then EmptyString :: split c s'
      else match split c s' with
           | [] => [String a EmptyString]
           | p :: ps => String a p :: ps
           end
  end.

(** [s.startswith(c)] and [s.endswith(c)] for a one-character [c]. *)
Definition startswith (c : ascii) (s : string) : bool :=
  match s with
  | EmptyString => false
  | String a _ => Ascii.eqb a c
  end.

Fixpoint endswith (c : ascii) (s : string) : bool :=
  match s with
  | EmptyString => false
  | String a EmptyString => Ascii.eqb a c
  | String _ s' => endswith c s'
  end.

(** Does the string contain the character? *)
Fixpoint contains (c : ascii) (s : string) : bool :=
  match s with
  | EmptyString => false
  | String a s' => Ascii.eqb a c || contains c s'
  end.

(** The path separator [os.sep] of [posixpath]. *)
Definition sep : ascii := "/"%char.

(** [os.path.join(a, *p)] as [posixpath.join] computes it: a component that
    starts with the separator restarts the path, a component after an empty
    path or after a trailing separator is appended as it is, any other is
    appended after a separator. *)
Fixpoint posix_join (path : string) (p : list string) : string :=
  match p with
  | [] => path
  | b :: p' =>
      let path' :=
        if startswith sep b then b
        else if negb (str_truthy path) || endswith sep path then path +:+ b
        else path +:+ String sep EmptyString +:+ b in
      posix_join path' p'
  end.

(** [os.path.join] applied to the unpacked list of parts: with no argument
    at all the call raises [TypeError] ([None] here). *)
Definition os_path_join (parts : list string) : option string :=
  match parts with
  | [] => None
  | a :: p => Some (posix_join a p)
  end.

(** ** models.py *)

Record FileNode := mkFileNode {
  path : string;
  relative_path : string }.

Record FunctionNode := mkFunctionNode {
  fn_id : string;
  fn_name : string;
  fn_file_path : string;
  fn_line_number : Z }.

Record ClassNode := mkClassNode {
  cls_id : string;
  cls_name : string;
  cls_file_path : string;
  cls_line_number : Z }.

Record ImportRelation := mkImportRelation {
  from_file : string;
  to_file : string;
  import_name : string }.

Record CallRelation := mkCallRelation {
  from_function : string;
  to_function : string }.

Record RepositoryData := mkRepositoryData {
  files : list FileNode;
  functions : list FunctionNode;
  classes : list ClassNode;
  imports : list ImportRelation;
  calls : list CallRelation;
  function_map : gmap string string }.

(** [RepositoryData([], [], [], [], [], {})] *)
Definition empty_data : RepositoryData :=
  mkRepositoryData [] [] [] [] [] ∅.

(** ** The syntax tree of the [ast] module

    The code tests a node for eight classes only ([Import], [ImportFrom],
    [FunctionDef], [AsyncFunctionDef], [ClassDef], [Call], [Name],
    [Attribute]); these keep their fields, in the order of [_fields].
    Every other class is [Other] with its child nodes in field order.
    Expression-context markers ([Load], [Store], [Del]) are childless nodes
    of no tested class and are left out. *)

Record alias := mkAlias {
  alias_name : string;
  alias_asname : option string }.

Inductive node : Type :=
| Import (names : list alias)
| ImportFrom (module : option string) (names : list alias) (level : Z)
| FunctionDef (name : string) (args : node) (body decorator_list : list node)
    (returns : option node) (type_params : list node) (lineno : Z)
| AsyncFunctionDef (name : string) (args : node) (body decorator_list : list node)
    (returns : option node) (type_params : list node) (lineno : Z)
| ClassDef (name : string) (bases keywords body decorator_list : list node)
    (type_params : list node) (lineno : Z)
| Call (func : node) (args keywords : list node)
| Name (id : string)
| Attribute (value : node) (attr : string)
| AliasNode (a : alias)
| Other (children : list node).

(** [ast.iter_child_nodes]: the direct child nodes, in field order. *)
Definition iter_child_nodes (n : node) : list node :=
  match n with
  | Import names => AliasNode <$> names
  | ImportFrom _ names _ => AliasNode <$> names
  | FunctionDef _ args body decorator_list returns type_params _
  | AsyncFunctionDef _ args body decorator_list returns type_params _ =>
      args :: body ++ decorator_list ++ option_list returns ++ type_params
  | ClassDef _ bases keywords body decorator_list type_params _ =>
      bases ++ keywords ++ body ++ decorator_list ++ type_params
  | Call func args keywords => func :: args ++ keywords
  | Name _ => []
  | Attribute value _ => [value]
  | AliasNode _ => []
  | Other children => children
  end.

(** The number of nodes of a tree: the measure of the traversals. *)
Fixpoint node_size (n : node) : nat :=
  let fix sizes (l : list node) : nat :=
    match l with
    | [] => 0
    | c :: l' => node_size c + sizes l'
    end in
  let size_opt (o : option node) : nat :=
    match o with
    | Some c => node_size c
    | None => 0
    end in
  S match n with
    | Import names | ImportFrom _ names _ => length names
    | FunctionDef _ args body decorator_list returns type_params _
    | AsyncFunctionDef _ args body decorator_list returns type_params _ =>
        node_size args + sizes body + sizes decorator_list
        + size_opt returns + sizes type_params
    | ClassDef _ bases keywords body decorator_list type_params _ =>
        sizes bases + sizes keywords + sizes body + sizes decorator_list
        + sizes type_params
    | Call func args keywords => node_size func + sizes args + sizes keywords
    | Name _ => 0
    | Attribute value _ => node_size value
    | AliasNode _ => 0
    | Other children => sizes children
    end.

Definition queue_size (todo : list node) : nat :=
  sum_list_with node_size todo.

Lemma queue_size_app (q1 q2 : list node) :
  queue_size (q1 ++ q2) = queue_size q1 + queue_size q2.
Proof. apply sum_list_with_app. Qed.

Lemma queue_size_children (n : node) :
  node_size n = S (queue_size (iter_child_nodes n)).
Proof.
  assert (Hs : ∀ l : list node,
    (fix sizes (l : list node) : nat :=
       match l with [] => 0 | c :: l' => node_size c + sizes l' end) l
    = queue_size l).
  { unfold queue_size. induction l as [|c l IH]; [done|]. cbn. by rewrite IH. }
  assert (Ha : ∀ l : list alias, queue_size (AliasNode <$> l) = length l).
  { unfold queue_size. induction l as [|a l IH]; [done|]. cbn. by f_equal. }
  assert (Hc : ∀ c l, queue_size (c :: l) = node_size c + queue_size l) by done.
  destruct n as [ns|m ns lv|nm a b d r tp ln|nm a b d r tp ln|nm bs ks b d tp ln
                 |f a ks|i|v at'|al|cs];
    cbn [node_size iter_child_nodes]; rewrite ?Ha, ?Hc, ?queue_size_app; try done.
  - rewrite (Hs b), (Hs d), (Hs tp). destruct r; unfold queue_size; simpl; lia.
  - rewrite (Hs b), (Hs d), (Hs tp). destruct r; unfold queue_size; simpl; lia.
  - rewrite (Hs bs), (Hs ks), (Hs b), (Hs d), (Hs tp). lia.
  - rewrite (Hs a), (Hs ks). lia.
Qed.

(** [ast.walk]: breadth first, a queue seeded with the root; each step pops
    the first node, appends its children to the queue and yields it. *)
Equations? walk_queue (todo : list node) : list node by wf (queue_size todo) lt :=
  walk_queue [] := [];
  walk_queue (n :: todo) := n :: walk_queue (todo ++ iter_child_nodes n).
Proof.
  rewrite queue_size_app. unfold queue_size at 3. simpl.
  rewrite (queue_size_children n). fold (queue_size todo). lia.
Qed.

Definition ast_walk (tree : node) : list node := walk_queue [tree].

(** [descendant n x]: [x] is [n] or lies below it. *)
Inductive descendant : node → node → Prop :=
| desc_self n : descendant n n
| desc_step n c x : c ∈ iter_child_nodes n → descendant c x → descendant n x.

(** ** parser.py *)

(** [sep.join(parts)] *)
Fixpoint join_with (s : string) (parts : list string) : string :=
  match parts with
  | [] => EmptyString
  | [p] => p
  | p :: ps => p +:+ s +:+ join_with s ps
  end.

(** *** Paths

    A [Path] is an absolute POSIX path, held as its components below the
    root. [relative_to] raises [ValueError] ([None]) when the base is not a
    prefix. *)
Definition Path := list string.

Definition str_path (p : Path) : string := "/" +:+ join_with "/" p.

Definition str_relative (parts : list string) : string :=
  match parts with
  | [] => "."
  | _ => join_with "/" parts
  end.

Fixpoint relative_to (p base : Path) {struct base} : option (list string) :=
  match base with
  | [] => Some p
  | b :: base' =>
      match p with
      | q :: p' => if String.eqb q b then relative_to p' base' else None
      | [] => None
      end
  end.

Definition get_relative_path (repo_path file_path : Path) : string :=
  match relative_to file_path repo_path with
  | Some rel => str_relative rel
  | None => str_path file_path
  end.

(** *** parse_imports *)

(** [os.path.join(...split('.')) + '.py'] *)
Definition potential_path (module_name : string) : option string :=
  p ← os_path_join (split "." module_name); Some (p +:+ ".py").

(** The body of the loop of [parse_imports] for one node of the walk: the
    edges it appends, or [None] when it raises. *)
Definition import_edges (file_path : string) (n : node)
  : option (list ImportRelation) :=
  match n with
  | Import names =>
      mapM (λ a, p ← potential_path (alias_name a);
                 Some (mkImportRelation file_path p (alias_name a))) names
  | ImportFrom module names _ =>
      if opt_truthy module then
        let m := default EmptyString module in
        p ← potential_path m;
        Some ((λ a, mkImportRelation file_path p (m +:+ "." +:+ alias_name a))
                <$> names)
      else Some []
  | _ => Some []
  end.

Fixpoint parse_imports_loop (file_path : string) (nodes : list node)
    (imports : list ImportRelation) : option (list ImportRelation) :=
  match nodes with
  | [] => Some imports
  | n :: nodes' =>
      es ← import_edges file_path n;
      parse_imports_loop file_path nodes' (imports ++ es)
  end.

Definition parse_imports (tree : node) (file_path : string)
  : option (list ImportRelation) :=
  parse_imports_loop file_path (ast_walk tree) [].

(** *** parse_function_calls *)

Record CallVisitor := mkCallVisitor {
  current_function : option string;
  visitor_calls : list CallRelation }.

(** The candidate name of [visit_Call], [None] when [call_name] stays
    [None]. *)
Definition call_name (func : node) : option string :=
  match func with
  | Name id => Some id
  | Attribute (Name id) attr => Some (id +:+ "." +:+ attr)
  | Attribute _ attr => Some attr
  | _ => None
  end.

(** [visit_Call] before its [generic_visit]. *)
Definition record_call (func : node) (v : CallVisitor) : CallVisitor :=
  match current_function v with
  | Some cur =>
      if str_truthy cur then
        if opt_truthy (call_name func) then
          mkCallVisitor (current_function v)
            (visitor_calls v
               ++ [mkCallRelation cur (default EmptyString (call_name func))])
        else v
      else v
  | None => v
  end.

Section CallVisitor.
Variable file_path : string.

Definition function_id (name : string) : string := file_path +:+ "::" +:+ name.

(** [NodeVisitor.visit]: dispatch on the class of the node, to
    [visit_FunctionDef], [visit_AsyncFunctionDef], [visit_Call] or
    [generic_visit], which visits the child nodes in field order. *)
Fixpoint visit (n : node) (v : CallVisitor) : CallVisitor :=
  let fix visit_all (l : list node) (v : CallVisitor) : CallVisitor :=
    match l with
    | [] => v
    | c :: l' => visit_all l' (visit c v)
    end in
  let visit_opt (o : option node) (v : CallVisitor) : CallVisitor :=
    match o with
    | Some c => visit c v
    | None => v
    end in
  let generic_visit (v : CallVisitor) : CallVisitor :=
    match n with
    | Import _ | ImportFrom _ _ _ | Name _ | AliasNode _ => v
    | FunctionDef _ args body decorator_list returns type_params _
    | AsyncFunctionDef _ args body decorator_list returns type_params _ =>
        visit_all type_params
          (visit_opt returns
             (visit_all decorator_list (visit_all body (visit args v))))
    | ClassDef _ bases keywords body decorator_list type_params _ =>
        visit_all type_params
          (visit_all decorator_list
             (visit_all body (visit_all keywords (visit_all bases v))))
    | Call func args keywords =>
        visit_all keywords (visit_all args (visit func v))
    | Attribute value _ => visit value v
    | Other children => visit_all children v
    end in
  match n with
  | FunctionDef name _ _ _ _ _ _ | AsyncFunctionDef name _ _ _ _ _ _ =>
      let old_func := current_function v in
      let v1 := mkCallVisitor (Some (function_id name)) (visitor_calls v) in
      let v2 := generic_visit v1 in
      mkCallVisitor old_func (visitor_calls v2)
  | Call func _ _ => generic_visit (record_call func v)
  | _ => generic_visit v
  end.

(** [generic_visit], stated on the child nodes. *)
Definition generic_visit (n : node) (v : CallVisitor) : CallVisitor :=
  foldl (λ v c, visit c v) v (iter_child_nodes n).

Definition parse_function_calls (tree : node) : list CallRelation :=
  visitor_calls (visit tree (mkCallVisitor None [])).

(** *** extract_functions_and_classes

    One step of the loop over the walk; the accumulator holds the two
    local lists and the shared [function_map]. *)
Definition extract_step
    (acc : list FunctionNode * list ClassNode * gmap string string) (n : node)
  : list FunctionNode * list ClassNode * gmap string string :=
  let '(fns, cls, fmap) := acc in
  match n with
  | FunctionDef name _ _ _ _ _ lineno | AsyncFunctionDef name _ _ _ _ _ lineno =>
      let func_id := function_id name in
      (fns ++ [mkFunctionNode func_id name file_path lineno], cls,
       <[name := func_id]> fmap)
  | ClassDef name _ _ _ _ _ lineno =>
      let class_id := function_id name in
      (fns, cls ++ [mkClassNode class_id name file_path lineno], fmap)
  | _ => acc
  end.

Definition extract_functions_and_classes (tree : node)
    (fmap : gmap string string)
  : list FunctionNode * list ClassNode * gmap string string :=
  foldl extract_step ([], [], fmap) (ast_walk tree).
End CallVisitor.

(** *** parse_file and parse_repository

    The file system and the [ast] parser are the environment of the
    driver: [read_text p] is the text [open(p).read()] returns, [None] when
    opening, reading or decoding raises; [ast_parse s] is the tree of
    [ast.parse(s)], [None] when it raises; [find_python_files] is the list
    the discovery walk returns.

    The call visitor is recursive in Python, one nest of calls per level of
    the tree, so on a tree that is too deep for the frames the interpreter
    has left it raises [RecursionError]. Whether it does is a fact of the
    interpreter (its limit, the frames in use), not of this code:
    [visitor_overflows tree] says so. The walks of [parse_imports] and
    [extract_functions_and_classes] run on a queue and do not nest. *)
Section Driver.
Variable repo_path : Path.
Variable read_text : Path → option string.
Variable ast_parse : string → option node.
Variable visitor_overflows : node → bool.
Variable find_python_files : list Path.

(** The whole body runs under one [try]: an exception at any point makes
    the call return [False] with the mutations done so far kept. *)
Definition parse_file (data : RepositoryData) (file_path : Path)
  : bool * RepositoryData :=
  match read_text file_path with
  | None => (false, data)
  | Some content =>
      match ast_parse content with
      | None => (false, data)
      | Some tree =>
          let relative_path := get_relative_path repo_path file_path in
          let file_node := mkFileNode (str_path file_path) relative_path in
          let files1 := files data ++ [file_node] in
          match parse_imports tree relative_path with
          | None =>
              (false,
               mkRepositoryData files1 (functions data) (classes data)
                 (imports data) (calls data) (function_map data))
          | Some file_imports =>
              let '(fns, cls, fmap) :=
                extract_functions_and_classes relative_path tree
                  (function_map data) in
              if visitor_overflows tree then
                (false,
                 mkRepositoryData files1 (functions data ++ fns)
                   (classes data ++ cls) (imports data ++ file_imports)
                   (calls data) fmap)
              else
                let file_calls := parse_function_calls relative_path tree in
                (true,
                 mkRepositoryData files1 (functions data ++ fns)
                   (classes data ++ cls) (imports data ++ file_imports)
                   (calls data ++ file_calls) fmap)
          end
      end
  end.

(** The loop of [parse_repository]: the aggregate and [success_count]. *)
Fixpoint parse_files (python_files : list Path) (data : RepositoryData)
    (success_count : nat) : RepositoryData * nat :=
  match python_files with
  | [] => (data, success_count)
  | file_path :: rest =>
      let '(ok, data') := parse_file data file_path in
      parse_files rest data' (if ok then S success_count else success_count)
  end.

Definition parse_repository : RepositoryData * nat :=
  parse_files find_python_files empty_data 0.
End Driver.

(** ** ingester.py: ingest_calls

    The graph store as far as the CALLS query reads and writes it: the ids
    of the Function nodes (unique by the [func_id] constraint) and the
    CALLS relationships between them. *)
Record GraphStore := mkGraphStore {
  function_nodes : gset string;
  calls_edges : gset (string * string) }.

(** The query of [ingest_calls]: both MATCH clauses must find their node,
    then MERGE adds the relationship unless it is there already; the
    returned count is the number of matched rows. *)
Definition run_calls_query (store : GraphStore) (from_fn to_fn : string)
  : GraphStore * nat :=
  if decide (from_fn ∈ function_nodes store ∧ to_fn ∈ function_nodes store)
  then (mkGraphStore (function_nodes store)
          ({[ (from_fn, to_fn) ]} ∪ calls_edges store), 1)
  else (store, 0).

Definition ingest_call (function_map : gmap string string)
    (acc : GraphStore * nat) (call : CallRelation) : GraphStore * nat :=
  let '(store, call_count) := acc in
  let to_function_id := function_map !! to_function call in
  if opt_truthy to_function_id then
    let '(store', created) :=
      run_calls_query store (from_function call)
        (default EmptyString to_function_id) in
    (store', if decide (0 < created) then S call_count else call_count)
  else acc.

(** Returns the store and the [call_count] it prints. *)
Definition ingest_calls (calls : list CallRelation)
    (function_map : gmap string string) (store : GraphStore)
  : GraphStore * nat :=
  match calls with
  | [] => (store, 0)
  | _ => foldl (ingest_call function_map) (store, 0) calls
  end.

(** ** Auxiliary notions for the statements *)

(** The declared name of a function or coroutine-function declaration. *)
Definition is_function_def (n : node) : option string :=
  match n with
  | FunctionDef name _ _ _ _ _ _ | AsyncFunctionDef name _ _ _ _ _ _ => Some name
  | _ => None
  end.

(** The slot while the children of [n] are visited, [cur] being its value on
    arrival at [n]. *)
Definition inner_function (file_path : string) (cur : option string) (n : node)
  : option string :=
  match is_function_def n with
  | Some name => Some (function_id file_path name)
  | None => cur
  end.

(** The edges a visit of [n] appends when it starts with the slot at [cur]. *)
Definition emitted (file_path : string) (cur : option string) (n : node)
  : list CallRelation :=
  visitor_calls (visit file_path n (mkCallVisitor cur [])).

(** The edge [visit_Call] itself appends at node [n], if any. *)
Definition own_edges (cur : option string) (n : node) : list CallRelation :=
  match n with
  | Call func _ _ => visitor_calls (record_call func (mkCallVisitor cur []))
  | _ => []
  end.

(** [within n x]: [x] lies strictly below [n] and no function declaration
    lies strictly between the two. *)
Inductive within : node → node → Prop :=
| within_child n c : c ∈ iter_child_nodes n → within n c
| within_step n c x :
    c ∈ iter_child_nodes n → is_function_def c = None → within c x → within n x.

(** [at_module_scope n x]: [x] is [n] or lies below it, and no node from
    [n] down to the parent of [x] is a function declaration: [x] has no
    enclosing function declaration in [n]. *)
Inductive at_module_scope : node → node → Prop :=
| scope_root n : at_module_scope n n
| scope_step n c x :
    is_function_def n = None → c ∈ iter_child_nodes n →
    at_module_scope c x → at_module_scope n x.

(** The function declarations of a tree that have no enclosing function
    declaration, in the order the visitor meets them. *)
Fixpoint outermost_declarations (n : node) : list node :=
  let fix of_all (l : list node) : list node :=
    match l with
    | [] => []
    | c :: l' => outermost_declarations c ++ of_all l'
    end in
  match n with
  | FunctionDef _ _ _ _ _ _ _ | AsyncFunctionDef _ _ _ _ _ _ _ => [n]
  | Import _ | ImportFrom _ _ _ | Name _ | AliasNode _ => []
  | ClassDef _ bases keywords body decorator_list type_params _ =>
      of_all bases ++ of_all keywords ++ of_all body ++ of_all decorator_list
        ++ of_all type_params
  | Call func args keywords =>
      outermost_declarations func ++ of_all args ++ of_all keywords
  | Attribute value _ => outermost_declarations value
  | Other children => of_all children
  end.

(** No function declaration in the tree. *)
Definition no_function_def (tree : node) : bool :=
  forallb (λ d, bool_decide (is_function_def d = None)) (ast_walk tree).

(** ** Well-formed trees

    What the trees of [ast.parse] guarantee and the type [node] does not:
    an identifier is not empty and holds neither a dot nor a path
    separator; a module name is a dotted sequence of identifiers. *)
Definition identifier_like (s : string) : bool :=
  str_truthy s && negb (contains "." s) && negb (contains sep s).

Definition dotted_name (s : string) : bool :=
  forallb identifier_like (split "." s).

Definition well_formed_node (n : node) : bool :=
  match n with
  | Import names => forallb (λ a, dotted_name (alias_name a)) names
  | ImportFrom (Some m) _ _ => dotted_name m
  | FunctionDef name _ _ _ _ _ _ | AsyncFunctionDef name _ _ _ _ _ _
  | ClassDef name _ _ _ _ _ _ => identifier_like name
  | Name id => identifier_like id
  | Attribute _ attr => identifier_like attr
  | _ => true
  end.

Definition well_formed (tree : node) : bool :=
  forallb well_formed_node (ast_walk tree).

(** ** The import edges as the specification words them

    [to_file] is the dotted module path split on the dot, joined with the
    path separator, with the extension appended. *)
Definition spec_to_file (module_name : string) : string :=
  join_with (String sep EmptyString) (split "." module_name) +:+ ".py".

Definition spec_import_edges (file_path : string) (n : node)
  : list ImportRelation :=
  match n with
  | Import names =>
      (λ a, mkImportRelation file_path (spec_to_file (alias_name a))
              (alias_name a)) <$> names
  | ImportFrom (Some m) names _ =>
      (λ a, mkImportRelation file_path (spec_to_file m)
              (m +:+ "." +:+ alias_name a)) <$> names
  | _ => []
  end.

(** ** The driver, read off its inputs *)

(** The tree of a file, when reading and parsing both succeed. *)
Definition parsed_tree (read_text : Path → option string)
    (ast_parse : string → option node) (file_path : Path) : option node :=
  read_text file_path ≫= ast_parse.

(** A file that fails: its text cannot be read or does not parse. *)
Definition fails_to_parse (read_text : Path → option string)
    (ast_parse : string → option node) (file_path : Path) : bool :=
  bool_decide (parsed_tree read_text ast_parse file_path = None).

(** The entity a node of the walk contributes to the functions, if any. *)
Definition function_node_of (file_path : string) (n : node)
  : option FunctionNode :=
  match n with
  | FunctionDef name _ _ _ _ _ lineno | AsyncFunctionDef name _ _ _ _ _ lineno =>
      Some (mkFunctionNode (function_id file_path name) name file_path lineno)
  | _ => None
  end.

Definition class_node_of (file_path : string) (n : node) : option ClassNode :=
  match n with
  | ClassDef name _ _ _ _ _ lineno =>
      Some (mkClassNode (function_id file_path name) name file_path lineno)
  | _ => None
  end.

(** Recording [name -> id] for a sequence of functions, in order. *)
Definition record_functions (fmap : gmap string string)
    (fns : list FunctionNode) : gmap string string :=
  foldl (λ m f, <[fn_name f := fn_id f]> m) fmap fns.

(** The functions of one discovered file, none when it fails. *)
Definition file_functions (repo_path : Path) (read_text : Path → option string)
    (ast_parse : string → option node) (file_path : Path)
  : list FunctionNode :=
  match parsed_tree read_text ast_parse file_path with
  | Some tree =>
      omap (function_node_of (get_relative_path repo_path file_path))
        (ast_walk tree)
  | None => []
  end.

(** The call edges [parse_file] gets for a tree: none when the visitor
    raises. *)
Definition extracted_calls (visitor_overflows : node → bool)
    (file_path : string) (tree : node) : list CallRelation :=
  if visitor_overflows tree then [] else parse_function_calls file_path tree.

(** The call edges of one discovered file, none when it fails. *)
Definition file_calls (repo_path : Path) (read_text : Path → option string)
    (ast_parse : string → option node) (visitor_overflows : node → bool)
    (file_path : Path) : list CallRelation :=
  match parsed_tree read_text ast_parse file_path with
  | Some tree =>
      extracted_calls visitor_overflows
        (get_relative_path repo_path file_path) tree
  | None => []
  end.

(** A file that parses and on whose tree the call visitor raises. *)
Definition visitor_fails (read_text : Path → option string)
    (ast_parse : string → option node) (visitor_overflows : node → bool)
    (file_path : Path) : bool :=
  match parsed_tree read_text ast_parse file_path with
  | Some tree => visitor_overflows tree
  | None => false
  end.

(** A file on which [parse_file] fails, for either reason. *)
Definition file_fails (read_text : Path → option string)
    (ast_parse : string → option node) (visitor_overflows : node → bool)
    (file_path : Path) : bool :=
  fails_to_parse read_text ast_parse file_path
  || visitor_fails read_text ast_parse visitor_overflows file_path.

(** The aggregate after a file that parsed to [tree], with the import
    edges [file_imports] and the call edges [file_calls]. *)
Definition add_parsed_file (repo_path file_path : Path) (tree : node)
    (file_imports : list ImportRelation) (file_calls : list CallRelation)
    (data : RepositoryData) : RepositoryData :=
  let rel := get_relative_path repo_path file_path in
  mkRepositoryData
    (files data ++ [mkFileNode (str_path file_path) rel])
    (functions data ++ omap (function_node_of rel) (ast_walk tree))
    (classes data ++ omap (class_node_of rel) (ast_walk tree))
    (imports data ++ file_imports)
    (calls data ++ file_calls)
    (record_functions (function_map data)
       (omap (function_node_of rel) (ast_walk tree))).

(** [resolves fmap store c e]: the call edge [c] resolves through the table
    to the relationship [e] between two Function nodes of the store. *)
Definition resolves (fmap : gmap string string) (store : GraphStore)
    (c : CallRelation) (e : string * string) : Prop :=
  ∃ id, fmap !! to_function c = Some id
        ∧ str_truthy id = true
        ∧ from_function c ∈ function_nodes store
        ∧ id ∈ function_nodes store
        ∧ e = (from_function c, id).

(** ** Sample trees

    [Module] and [Expr] are nodes of no tested class; [arguments()] is a
    childless node here. *)
Definition Module (body : list node) : node := Other body.
Definition Expr (value : node) : node := Other [value].
Definition no_arguments : node := Other [].

(** [def g():] / [    def h():] / [        x()] *)
Definition sample_inner : node :=
  FunctionDef "h" no_arguments [Expr (Call (Name "x") [] [])] [] None [] 2.
Definition sample_outer : node :=
  FunctionDef "g" no_arguments [sample_inner] [] None [] 1.
Definition sample_nested : node := Module [sample_outer].

(** [import os.path] / [from pkg.util import helper] / [from . import sibling] *)
Definition sample_imports : node :=
  Module [Import [mkAlias "os.path" None];
          ImportFrom (Some "pkg.util") [mkAlias "helper" None] 0;
          ImportFrom None [mkAlias "sibling" None] 1].

(** [setup()] / [class K:] / [    register(K)] *)
Definition sample_module_scope : node :=
  Module [Expr (Call (Name "setup") [] []);
          ClassDef "K" [] [] [Expr (Call (Name "register") [Name "K"] [])] [] [] 2].

(** [def f(): pass] / [setup()] *)
Definition sample_call_after_declaration : node :=
  Module [FunctionDef "f" no_arguments [Other []] [] None [] 1;
          Expr (Call (Name "setup") [] [])].

(** [def g():] / [    obj.m(f())] *)
Definition sample_method_call : node :=
  Call (Attribute (Name "obj") "m") [Call (Name "f") [] []] [].
Definition sample_caller : node :=
  FunctionDef "g" no_arguments [Expr sample_method_call] [] None [] 1.

(** ** A sample repository

    Six files below [/srv/repo]: [a.py] defines [foo], [b.py] defines
    [bar], which calls [foo], [x.py] and [y.py] each define [dup],
    [broken.py] does not parse, and [deep.py] defines [deep], whose body
    calls [foo] on [x] followed by 500 attribute accesses: the text parses,
    to a tree that nests the 500 accesses, and the call visitor cannot go
    that deep. *)
Definition sample_repo : Path := ["srv"; "repo"].
Definition text_a : string := "def foo(): pass".
Definition text_b : string := "def bar(): foo()".
Definition text_dup : string := "def dup(): pass".
Definition text_broken : string := "def (".

(** [x.a.a...a], with [k] accesses. *)
Fixpoint chain_text (k : nat) : string :=
  match k with
  | O => "x"
  | S k' => chain_text k' +:+ ".a"
  end.
Definition text_deep : string := "def deep(): foo(" +:+ chain_text 500 +:+ ")".

Definition pass_stmt : node := Other [].
Definition tree_a : node :=
  Module [FunctionDef "foo" no_arguments [pass_stmt] [] None [] 1].
Definition tree_b : node :=
  Module [FunctionDef "bar" no_arguments [Expr (Call (Name "foo") [] [])]
            [] None [] 1].
Definition tree_dup : node :=
  Module [FunctionDef "dup" no_arguments [pass_stmt] [] None [] 1].

(** The tree of [chain_text k]. *)
Fixpoint chain_tree (k : nat) : node :=
  match k with
  | O => Name "x"
  | S k' => Attribute (chain_tree k') "a"
  end.

Definition tree_deep : node :=
  Module [FunctionDef "deep" no_arguments
            [Expr (Call (Name "foo") [chain_tree 500] [])] [] None [] 1].

(** The number of [visit] calls that are active at once when the visitor
    is at its deepest in a tree: the nodes on a longest path from the
    root. *)
Fixpoint visit_depth (n : node) : nat :=
  let fix depths (l : list node) : nat :=
    match l with
    | [] => 0
    | c :: l' => Nat.max (visit_depth c) (depths l')
    end in
  let depth_opt (o : option node) : nat :=
    match o with
    | Some c => visit_depth c
    | None => 0
    end in
  S (match n with
     | Import _ | ImportFrom _ _ _ | Name _ | AliasNode _ => 0
     | FunctionDef _ args body decorator_list returns type_params _
     | AsyncFunctionDef _ args body decorator_list returns type_params _ =>
         Nat.max (visit_depth args)
           (Nat.max (depths body)
              (Nat.max (depths decorator_list)
                 (Nat.max (depth_opt returns) (depths type_params))))
     | ClassDef _ bases keywords body decorator_list type_params _ =>
         Nat.max (depths bases)
           (Nat.max (depths keywords)
              (Nat.max (depths body)
                 (Nat.max (depths decorator_list) (depths type_params))))
     | Call func args keywords =>
         Nat.max (visit_depth func) (Nat.max (depths args) (depths keywords))
     | Attribute value _ => visit_depth value
     | Other children => depths children
     end).

(** A sample interpreter. Each level of the tree costs the visitor two
    frames, one of [visit] and one of [generic_visit], [visit_Call] or
    [visit_FunctionDef], and the interpreter's default limit is 1000 frames:
    on a tree with 500 nodes on a path the visitor raises. The sample
    interpreter raises on these trees and on no other; the other sample
    trees have fewer than ten nodes on a path. *)
Definition sample_visitor_overflows (tree : node) : bool :=
  (500 <=? visit_depth tree)%nat.

Definition sample_read_text (p : Path) : option string :=
  if decide (p = sample_repo ++ ["a.py"]) then Some text_a
  else if decide (p = sample_repo ++ ["b.py"]) then Some text_b
  else if decide (p = sample_repo ++ ["x.py"]) then Some text_dup
  else if decide (p = sample_repo ++ ["y.py"]) then Some text_dup
  else if decide (p = sample_repo ++ ["broken.py"]) then Some text_broken
  else if decide (p = sample_repo ++ ["deep.py"]) then Some text_deep
  else None.

Definition sample_ast_parse (s : string) : option node :=
  if decide (s = text_a) then Some tree_a
  else if decide (s = text_b) then Some tree_b
  else if decide (s = text_dup) then Some tree_dup
  else if decide (s = text_deep) then Some tree_deep
  else None.

(** * Properties *)

(** ** The model on small inputs *)

(** The walk is breadth first: the two statements of the module come before
    anything below them. *)
Example ast_walk_breadth_first :
  ast_walk (Module [Expr (Name "a"); Expr (Name "b")]) =
  [Module [Expr (Name "a"); Expr (Name "b")];
   Expr (Name "a"); Expr (Name "b"); Name "a"; Name "b"].
Proof. reflexivity. Qed.

Example split_dotted : split "." "os.path" = ["os"; "path"].
Proof. reflexivity. Qed.

Example split_keeps_empty_parts : split "." ".a." = [EmptyString; "a"; EmptyString].
Proof. reflexivity. Qed.

Example posix_join_restarts_at_root : posix_join "a" ["/b"; "c"] = "/b/c".
Proof. reflexivity. Qed.

Example calls_of_sample_nested :
  parse_function_calls "m.py" sample_nested = [mkCallRelation "m.py::h" "x"].
Proof. reflexivity. Qed.

Example calls_of_sample_module_scope :
  parse_function_calls "m.py" sample_module_scope = [].
Proof. reflexivity. Qed.

(** A call in the decorator or in a default of a declaration is a child of
    the declaration node, so it is visited with the slot at that
    declaration: [@register()] / [def g(): pass]. *)
Example decorator_call_belongs_to_declaration :
  parse_function_calls "m.py"
    (Module [FunctionDef "g" no_arguments [Other []]
               [Call (Name "register") [] []] None [] 2]) =
  [mkCallRelation "m.py::g" "register"].
Proof. reflexivity. Qed.

(** The three shapes of a call target: [f()], [obj.m()], [make().m()], and
    a target of no candidate, [table[0]()]. *)
Example candidates_by_shape :
  parse_function_calls "m.py"
    (Module [FunctionDef "g" no_arguments
               [Expr (Call (Name "f") [] []);
                Expr (Call (Attribute (Name "obj") "m") [] []);
                Expr (Call (Attribute (Call (Name "make") [] []) "m") [] []);
                Expr (Call (Other [Name "table"; Other []]) [] [])]
               [] None [] 1]) =
  [mkCallRelation "m.py::g" "f";
   mkCallRelation "m.py::g" "obj.m";
   mkCallRelation "m.py::g" "m";
   mkCallRelation "m.py::g" "make"].
Proof. reflexivity. Qed.

Example relative_path_of_sample :
  get_relative_path sample_repo (sample_repo ++ ["pkg"; "a.py"]) = "pkg/a.py".
Proof. reflexivity. Qed.

Example relative_path_outside_repo :
  get_relative_path sample_repo ["tmp"; "a.py"] = "/tmp/a.py".
Proof. reflexivity. Qed.

Example sample_run :
  let result :=
    parse_repository sample_repo sample_read_text sample_ast_parse sample_visitor_overflows
      [sample_repo ++ ["a.py"]; sample_repo ++ ["broken.py"];
       sample_repo ++ ["b.py"]] in
  result.2 = 2
  ∧ relative_path <$> files result.1 = ["a.py"; "b.py"]
  ∧ fn_id <$> functions result.1 = ["a.py::foo"; "b.py::bar"]
  ∧ calls result.1 = [mkCallRelation "b.py::bar" "foo"].
Proof. by vm_compute. Qed.

(** [deep.py] parses; the visitor raises on its tree after the file, its
    imports and its declaration went into the aggregate: the file is not
    counted and its call is missing. *)
Example sample_deep_run :
  let result :=
    parse_repository sample_repo sample_read_text sample_ast_parse
      sample_visitor_overflows
      [sample_repo ++ ["a.py"]; sample_repo ++ ["deep.py"];
       sample_repo ++ ["b.py"]] in
  result.2 = 2
  ∧ relative_path <$> files result.1 = ["a.py"; "deep.py"; "b.py"]
  ∧ fn_id <$> functions result.1 = ["a.py::foo"; "deep.py::deep"; "b.py::bar"]
  ∧ function_map result.1 !! "deep" = Some "deep.py::deep"
  ∧ calls result.1 = [mkCallRelation "b.py::bar" "foo"]
  ∧ length (parse_function_calls "deep.py" tree_deep) = 1.
Proof. by vm_compute. Qed.

(** ** Trees and the walk *)

Lemma child_size_lt (n c : node) :
  c ∈ iter_child_nodes n → node_size c < node_size n.
Proof.
  rewrite (queue_size_children n). unfold queue_size.
  induction (iter_child_nodes n) as [|d l IH]; intros Hc.
  - by apply elem_of_nil in Hc.
  - apply elem_of_cons in Hc as [->|Hc]; simpl; [lia|]. specialize (IH Hc). lia.
Qed.

(** Induction along [iter_child_nodes]. *)
Lemma node_children_ind (P : node → Prop) :
  (∀ n, Forall P (iter_child_nodes n) → P n) → ∀ n, P n.
Proof.
  intros H n. remember (node_size n) as k eqn:Hk.
  revert n Hk. induction k as [k IH] using lt_wf_ind. intros n ->.
  apply H, Forall_forall. intros c Hc. eapply IH; [|done].
  by apply child_size_lt.
Qed.

Lemma descendant_trans (a b c : node) :
  descendant a b → descendant b c → descendant a c.
Proof.
  induction 1 as [|n d x Hd Hdx IH]; [done|]. intros Hc.
  eapply desc_step; [done|]. by apply IH.
Qed.

Lemma descendant_child (n c : node) :
  c ∈ iter_child_nodes n → descendant n c.
Proof. intros Hc. eapply desc_step; [done|]. constructor. Qed.

(** The walk yields exactly the nodes below the queued ones. *)
Lemma walk_queue_elem (todo : list node) (x : node) :
  x ∈ walk_queue todo ↔ ∃ r, r ∈ todo ∧ descendant r x.
Proof.
  funelim (walk_queue todo); simp walk_queue.
  - split; [by intros ?%elem_of_nil|]. by intros (r & ?%elem_of_nil & _).
  - rewrite elem_of_cons, H. split.
    + intros [->|(r & Hr & Hd)].
      * exists n. split; [left|constructor].
      * apply elem_of_app in Hr as [Hr|Hr].
        -- exists r. split; [by right|done].
        -- exists n. split; [left|]. by eapply desc_step.
    + intros (r & Hr & Hd). apply elem_of_cons in Hr as [->|Hr].
      * inversion Hd as [|? c ? Hc Hcx]; subst; [by left|].
        right. exists c. split; [|done]. apply elem_of_app. by right.
      * right. exists r. split; [|done]. apply elem_of_app. by left.
Qed.

Lemma ast_walk_elem (tree x : node) : x ∈ ast_walk tree ↔ descendant tree x.
Proof.
  unfold ast_walk. rewrite walk_queue_elem. split.
  - by intros (r & ->%list_elem_of_singleton & Hd).
  - intros Hd. exists tree. split; [constructor|done].
Qed.

(** ** The call visitor *)

Lemma string_app_inj (p a b : string) : p +:+ a = p +:+ b → a = b.
Proof.
  induction p as [|c p IH]; simpl; [done|]. intros [= H]. by apply IH.
Qed.

Section VisitorFacts.
Variable file_path : string.

(** [visit] in terms of [generic_visit], as the three methods read. *)
Lemma visit_eq (n : node) (v : CallVisitor) :
  visit file_path n v =
  match n with
  | FunctionDef name _ _ _ _ _ _ | AsyncFunctionDef name _ _ _ _ _ _ =>
      mkCallVisitor (current_function v)
        (visitor_calls
           (generic_visit file_path n
              (mkCallVisitor (Some (function_id file_path name)) (visitor_calls v))))
  | Call func _ _ => generic_visit file_path n (record_call func v)
  | _ => generic_visit file_path n v
  end.
Proof.
  assert (Hall : ∀ (l : list node) (w : CallVisitor),
    (fix visit_all (l : list node) (v : CallVisitor) : CallVisitor :=
       match l with
       | [] => v
       | c :: l' => visit_all l' (visit file_path c v)
       end) l w = foldl (λ v c, visit file_path c v) w l).
  { induction l as [|c l IH]; intros w; [done|]. cbn [foldl]. by rewrite <- IH. }
  destruct n as [ns|m ns lv|nm a b d r tp ln|nm a b d r tp ln|nm bs ks b d tp ln
                |f a ks|i|val at'|al|cs];
    unfold generic_visit; cbn [iter_child_nodes foldl]; simpl;
    rewrite ?foldl_app.
  - by induction ns.
  - by induction ns.
  - rewrite (Hall b), (Hall d), (Hall tp). by destruct r.
  - rewrite (Hall b), (Hall d), (Hall tp). by destruct r.
  - by rewrite (Hall bs), (Hall ks), (Hall b), (Hall d), (Hall tp).
  - by rewrite (Hall a), (Hall ks).
  - done.
  - done.
  - done.
  - by rewrite (Hall cs).
Qed.

Lemma record_call_frame (func : node) (v : CallVisitor) :
  record_call func v =
  mkCallVisitor (current_function v)
    (visitor_calls v ++ own_edges (current_function v) (Call func [] [])).
Proof.
  destruct v as [cur l]. unfold own_edges, record_call. simpl.
  destruct cur as [c|]; simpl; [|by rewrite app_nil_r].
  destruct (str_truthy c), (opt_truthy (call_name func)); simpl;
    by rewrite ?app_nil_r.
Qed.

Lemma foldl_visit_frame (l : list node) :
  Forall (λ c, ∀ v, visit file_path c v =
    mkCallVisitor (current_function v)
      (visitor_calls v ++ emitted file_path (current_function v) c)) l →
  ∀ v, foldl (λ v c, visit file_path c v) v l =
    mkCallVisitor (current_function v)
      (visitor_calls v ++ (l ≫= emitted file_path (current_function v))).
Proof.
  induction 1 as [|c l Hc _ IH]; intros [cur cs]; simpl.
  - by rewrite app_nil_r.
  - rewrite Hc, IH. simpl. by rewrite app_assoc.
Qed.

(** A visit leaves the slot as it found it and only appends edges, which
    depend on the incoming state through the slot alone. *)
Lemma visit_frame (n : node) (v : CallVisitor) :
  visit file_path n v =
  mkCallVisitor (current_function v)
    (visitor_calls v ++ emitted file_path (current_function v) n).
Proof.
  revert v. induction n as [n IH] using node_children_ind. intros v.
  pose proof (foldl_visit_frame _ IH) as Hg.
  unfold emitted. rewrite !visit_eq. unfold generic_visit.
  destruct n; try (rewrite !Hg; simpl; done).
  rewrite !record_call_frame, !Hg. simpl. by rewrite <- app_assoc.
Qed.

(** The visitor as a function of the scope: a declaration switches the
    scope of its children to its own id, a call contributes its own edge
    first, every node passes the scope on to its children in order. *)
Lemma emitted_eq (cur : option string) (n : node) :
  emitted file_path cur n =
  own_edges cur n
    ++ (iter_child_nodes n ≫= emitted file_path (inner_function file_path cur n)).
Proof.
  assert (Hg : ∀ v, foldl (λ v c, visit file_path c v) v (iter_child_nodes n) =
    mkCallVisitor (current_function v)
      (visitor_calls v
         ++ (iter_child_nodes n ≫= emitted file_path (current_function v)))).
  { apply foldl_visit_frame, Forall_forall. intros c _ v. apply visit_frame. }
  unfold emitted at 1. rewrite visit_eq. unfold generic_visit.
  destruct n; try (rewrite !Hg; simpl; done).
  rewrite record_call_frame, Hg. simpl. unfold own_edges.
  by rewrite record_call_frame.
Qed.

Lemma function_id_truthy (name : string) :
  str_truthy (function_id file_path name) = true.
Proof. unfold function_id. by destruct file_path. Qed.

Lemma function_id_inj (g h : string) :
  function_id file_path g = function_id file_path h → g = h.
Proof.
  unfold function_id. intros H%string_app_inj. simpl in H. by injection H.
Qed.

Lemma inner_function_other (cur : option string) (n : node) :
  is_function_def n = None → inner_function file_path cur n = cur.
Proof. unfold inner_function. by intros ->. Qed.

Lemma emitted_child (cur : option string) (n c : node) :
  c ∈ iter_child_nodes n →
  ∃ l1 l2, emitted file_path cur n =
    l1 ++ emitted file_path (inner_function file_path cur n) c ++ l2.
Proof.
  intros (k1 & k2 & Hk)%list_elem_of_split. rewrite emitted_eq, Hk.
  rewrite bind_app, bind_cons.
  exists (own_edges cur n
            ++ (k1 ≫= emitted file_path (inner_function file_path cur n))),
    (k2 ≫= emitted file_path (inner_function file_path cur n)).
  by rewrite <- app_assoc.
Qed.

(** The visit of a node [x] inside the scope of [n] runs with the slot
    that [n] gives its children. *)
Lemma emitted_within (n x : node) :
  within n x → ∀ cur, ∃ l1 l2, emitted file_path cur n =
    l1 ++ emitted file_path (inner_function file_path cur n) x ++ l2.
Proof.
  induction 1 as [n c Hc|n c x Hc Hdef _ IH]; intros cur.
  - by apply emitted_child.
  - destruct (emitted_child cur n c Hc) as (l1 & l2 & ->).
    destruct (IH (inner_function file_path cur n)) as (m1 & m2 & Hm).
    rewrite (inner_function_other _ c) in Hm by done. rewrite Hm.
    exists (l1 ++ m1), (m2 ++ l2). by rewrite <- !app_assoc.
Qed.

Lemma emitted_descendant (n x : node) :
  descendant n x → ∀ cur, ∃ cur' l1 l2,
    emitted file_path cur n = l1 ++ emitted file_path cur' x ++ l2.
Proof.
  induction 1 as [n|n c x Hc _ IH]; intros cur.
  - exists cur, [], []. by rewrite app_nil_r.
  - destruct (emitted_child cur n c Hc) as (l1 & l2 & ->).
    destruct (IH (inner_function file_path cur n)) as (cur' & m1 & m2 & ->).
    exists cur', (l1 ++ m1), (m2 ++ l2). by rewrite <- !app_assoc.
Qed.

(** The edges of a declaration do not depend on the slot it is entered
    with. *)
Lemma emitted_function_def (n : node) (name : string) (cur : option string) :
  is_function_def n = Some name →
  emitted file_path cur n =
  iter_child_nodes n ≫= emitted file_path (Some (function_id file_path name)).
Proof.
  intros Hn. rewrite emitted_eq. unfold inner_function. rewrite Hn.
  by destruct n.
Qed.

Lemma no_function_def_spec (tree : node) :
  no_function_def tree = true ↔
  ∀ d, descendant tree d → is_function_def d = None.
Proof.
  unfold no_function_def. rewrite forallb_forall. split.
  - intros H d Hd. apply ast_walk_elem, list_elem_of_In, H in Hd.
    by apply bool_decide_eq_true in Hd.
  - intros H d Hd. apply bool_decide_eq_true, H, ast_walk_elem.
    by apply list_elem_of_In.
Qed.

Lemma emitted_module_scope (n : node) :
  no_function_def n = true → emitted file_path None n = [].
Proof.
  induction n as [n IH] using node_children_ind. intros Hn.
  rewrite no_function_def_spec in Hn. rewrite emitted_eq.
  unfold inner_function. rewrite (Hn n) by constructor.
  assert (own_edges None n = []) as -> by by destruct n.
  simpl. rewrite Forall_forall in IH.
  assert (Hc : ∀ c, c ∈ iter_child_nodes n → emitted file_path None c = []).
  { intros c Hc. apply IH; [done|]. apply no_function_def_spec.
    intros d Hd. apply Hn. by eapply desc_step. }
  clear IH Hn. induction (iter_child_nodes n) as [|c l IHl]; [done|].
  rewrite bind_cons, Hc by left. simpl. apply IHl.
  intros d Hd. apply Hc. by right.
Qed.

(** With the slot empty [visit_Call] appends nothing. *)
Lemma own_edges_module_scope (n : node) : own_edges None n = [].
Proof. by destruct n. Qed.

Lemma outermost_declarations_eq (n : node) :
  outermost_declarations n =
  match is_function_def n with
  | Some _ => [n]
  | None => iter_child_nodes n ≫= outermost_declarations
  end.
Proof.
  assert (Hall : ∀ l : list node,
    (fix of_all (l : list node) : list node :=
       match l with
       | [] => []
       | c :: l' => outermost_declarations c ++ of_all l'
       end) l = l ≫= outermost_declarations).
  { induction l as [|c l IH]; [done|]. by rewrite bind_cons, <- IH. }
  destruct n as [ns|m ns lv|nm a b d r tp ln|nm a b d r tp ln|nm bs ks b d tp ln
                |f a ks|i|val at'|al|cs];
    cbn [outermost_declarations is_function_def iter_child_nodes];
    rewrite ?Hall, ?bind_cons, ?bind_app; try done.
  - by induction ns.
  - by induction ns.
  - by rewrite app_nil_r.
Qed.

(** The edges of a tree are the edges of its outermost declarations. *)
Lemma emitted_outermost (n : node) :
  emitted file_path None n =
  outermost_declarations n ≫= emitted file_path None.
Proof.
  induction n as [n IH] using node_children_ind.
  rewrite outermost_declarations_eq.
  destruct (is_function_def n) as [name|] eqn:Hn.
  - by rewrite bind_cons, app_nil_r.
  - rewrite emitted_eq, own_edges_module_scope, inner_function_other by done.
    simpl. induction IH as [|c l Hc _ IHl]; [done|].
    by rewrite !bind_cons, bind_app, <- Hc, IHl.
Qed.

Lemma outermost_declarations_elem (n d : node) :
  d ∈ outermost_declarations n ↔
  at_module_scope n d ∧ is_Some (is_function_def d).
Proof.
  revert d. induction n as [n IH] using node_children_ind. intros d.
  rewrite outermost_declarations_eq. rewrite Forall_forall in IH.
  destruct (is_function_def n) as [name|] eqn:Hn.
  - rewrite list_elem_of_singleton. split.
    + intros ->. split; [constructor|]. by rewrite Hn.
    + intros [Hs _]. inversion Hs; [done|congruence].
  - rewrite list_elem_of_bind. split.
    + intros (c & Hd & Hc). apply (IH c Hc) in Hd as [Hs Hdef].
      split; [|done]. by eapply scope_step.
    + intros [Hs Hdef]. inversion Hs as [|? c ? _ Hc Hs']; subst.
      * rewrite Hn in Hdef. by destruct Hdef.
      * exists c. split; [|done]. by apply (IH c Hc).
Qed.

(** A node without an enclosing declaration is visited with the slot
    empty. *)
Lemma emitted_at_module_scope (n x : node) :
  at_module_scope n x →
  ∃ l1 l2, emitted file_path None n = l1 ++ emitted file_path None x ++ l2.
Proof.
  induction 1 as [n|n c x Hn Hc _ IH].
  - exists [], []. by rewrite app_nil_r.
  - destruct (emitted_child None n c Hc) as (l1 & l2 & ->).
    rewrite inner_function_other by done.
    destruct IH as (m1 & m2 & ->).
    exists (l1 ++ m1), (m2 ++ l2). by rewrite <- !app_assoc.
Qed.
End VisitorFacts.

(** ** Scope attribution and candidate names *)

Lemma dotted_truthy (r a : string) : str_truthy (r +:+ "." +:+ a) = true.
Proof. by destruct r. Qed.

(** C1. Entering a function or coroutine-function declaration sets the
    current-function slot to the id of the declaration, and the slot has its
    previous value again on exit. So when a top-level function [g] holds a
    nested function [h] with a call [x()] in its scope, the visit of that
    call runs with the slot at the id of [h], its edge goes from
    [file_path::h] to [x], and this is not the id of [g]. *)
Theorem nested_call_attributed_to_inner_function (file_path : string) :
  (∀ n v, current_function (visit file_path n v) = current_function v)
  ∧ (∀ hnode h v, is_function_def hnode = Some h →
       visit file_path hnode v =
       mkCallVisitor (current_function v)
         (visitor_calls
            (generic_visit file_path hnode
               (mkCallVisitor (Some (function_id file_path h))
                  (visitor_calls v)))))
  ∧ (∀ tree gnode hnode g h x cargs ckws,
       gnode ∈ iter_child_nodes tree →
       is_function_def gnode = Some g →
       (∃ c, c ∈ iter_child_nodes gnode ∧ descendant c hnode) →
       is_function_def hnode = Some h →
       within hnode (Call (Name x) cargs ckws) →
       str_truthy x = true →
       let h_id := function_id file_path h in
       ∃ l1 l2,
         parse_function_calls file_path tree =
           l1 ++ emitted file_path (Some h_id) (Call (Name x) cargs ckws) ++ l2
         ∧ emitted file_path (Some h_id) (Call (Name x) cargs ckws) =
             mkCallRelation h_id x
               :: ((cargs ++ ckws) ≫= emitted file_path (Some h_id))
         ∧ (g ≠ h → h_id ≠ function_id file_path g)).
Proof.
  split; [|split].
  - intros n v. by rewrite visit_frame.
  - intros hnode h v Hh. rewrite visit_eq. by destruct hnode; simplify_eq/=.
  - intros tree gnode hnode g h x cargs ckws Hg Hgdef (c & Hc & Hch) Hh Hw Hx h_id.
    assert (Htree : descendant tree hnode).
    { eapply desc_step; [done|]. by eapply desc_step. }
    destruct (emitted_descendant file_path _ _ Htree None) as (cur & l1 & l2 & Ht).
    destruct (emitted_within file_path _ _ Hw cur) as (m1 & m2 & Hm).
    unfold inner_function in Hm. rewrite Hh in Hm. fold h_id in Hm.
    exists (l1 ++ m1), (m2 ++ l2). split; [|split].
    + unfold parse_function_calls. fold (emitted file_path None tree).
      rewrite Ht, Hm. by rewrite <- !app_assoc.
    + rewrite emitted_eq. unfold own_edges, record_call, inner_function. simpl.
      unfold h_id at 1. rewrite function_id_truthy, Hx. simpl.
      done.
    + intros Hne Heq. apply Hne. symmetry. by eapply function_id_inj.
Qed.

Lemma nested_call_attributed_to_inner_function_witness :
  ∃ l1 l2,
    parse_function_calls "pkg/mod.py" sample_nested =
      l1 ++ emitted "pkg/mod.py" (Some "pkg/mod.py::h") (Call (Name "x") [] []) ++ l2
    ∧ emitted "pkg/mod.py" (Some "pkg/mod.py::h") (Call (Name "x") [] []) =
        [mkCallRelation "pkg/mod.py::h" "x"]
    ∧ ("g" ≠ "h" → "pkg/mod.py::h" ≠ "pkg/mod.py::g").
Proof.
  apply (proj2 (proj2 (nested_call_attributed_to_inner_function "pkg/mod.py"))
           sample_nested sample_outer sample_inner "g" "h" "x" [] []).
  - repeat constructor.
  - reflexivity.
  - exists sample_inner. split; repeat constructor.
  - reflexivity.
  - apply (within_step _ (Expr (Call (Name "x") [] []))).
    + repeat constructor.
    + reflexivity.
    + apply within_child. repeat constructor.
  - reflexivity.
Defined.

(** C3. Take a call in the scope of a function declaration [h] of the
    tree. The edges that the visit of this call appends are part of the
    result of the run on the tree, and they follow the shape of the call
    target: for a bare name, one edge from the id of [h] to the identifier;
    for an attribute access on a bare name, one edge to receiver, dot,
    attribute; for an attribute access on any other expression, one edge to
    the attribute alone; for any other target, no edge of the call itself.
    In each case the edges of the sub-expressions of the call follow.
    Identifiers of a parsed tree are not empty, which is what makes the
    candidate of a bare name or of an attribute truthy. *)
Theorem call_candidate_by_shape (file_path : string) (tree hnode : node)
    (h : string) (func : node) (args keywords : list node) :
  descendant tree hnode →
  is_function_def hnode = Some h →
  within hnode (Call func args keywords) →
  let h_id := function_id file_path h in
  let call := Call func args keywords in
  let visited := emitted file_path (Some h_id) call in
  let nested := (func :: args ++ keywords) ≫= emitted file_path (Some h_id) in
  (∃ l1 l2, parse_function_calls file_path tree = l1 ++ visited ++ l2)
  ∧ (∀ id, func = Name id → str_truthy id = true →
       visited = mkCallRelation h_id id :: nested)
  ∧ (∀ receiver attr, func = Attribute (Name receiver) attr →
       visited = mkCallRelation h_id (receiver +:+ "." +:+ attr) :: nested)
  ∧ (∀ value attr, func = Attribute value attr → (∀ id, value ≠ Name id) →
       str_truthy attr = true →
       visited = mkCallRelation h_id attr :: nested)
  ∧ ((∀ id, func ≠ Name id) → (∀ value attr, func ≠ Attribute value attr) →
       visited = nested).
Proof.
  intros Htree Hh Hw h_id call visited nested.
  assert (Hv : visited = own_edges (Some h_id) call ++ nested).
  { unfold visited, call, nested. by rewrite emitted_eq. }
  assert (Happ : ∀ name, call_name func = Some name → str_truthy name = true →
    own_edges (Some h_id) call = [mkCallRelation h_id name]).
  { intros name Hn Ht. unfold own_edges, call, record_call. simpl.
    unfold h_id. by rewrite function_id_truthy, Hn; simpl; rewrite Ht. }
  split; [|split; [|split; [|split]]].
  - destruct (emitted_descendant file_path _ _ Htree None)
      as (cur & l1 & l2 & Ht).
    destruct (emitted_within file_path _ _ Hw cur) as (m1 & m2 & Hm).
    unfold inner_function in Hm. rewrite Hh in Hm.
    exists (l1 ++ m1), (m2 ++ l2).
    unfold parse_function_calls. fold (emitted file_path None tree).
    rewrite Ht, Hm. by rewrite <- !app_assoc.
  - intros id Hf Hid. rewrite Hv, (Happ id); [done|by rewrite Hf|done].
  - intros receiver attr Hf. rewrite Hv, (Happ (receiver +:+ "." +:+ attr)).
    + done.
    + by rewrite Hf.
    + apply dotted_truthy.
  - intros value attr Hf Hvalue Ha. rewrite Hv, (Happ attr); [done| |done].
    rewrite Hf. destruct value; try done. by destruct (Hvalue id).
  - intros Hname Hattr. rewrite Hv.
    assert (Hn : call_name func = None).
    { destruct func; try done; [by destruct (Hname id)|].
      by destruct (Hattr func attr). }
    unfold own_edges, call, record_call. simpl.
    unfold h_id. by rewrite function_id_truthy, Hn.
Qed.

Lemma call_candidate_by_shape_witness :
  (∃ l1 l2,
     parse_function_calls "m.py" (Module [sample_caller]) =
     l1 ++ emitted "m.py" (Some "m.py::g") sample_method_call ++ l2)
  ∧ emitted "m.py" (Some "m.py::g") sample_method_call =
    [mkCallRelation "m.py::g" "obj.m"; mkCallRelation "m.py::g" "f"].
Proof.
  assert (Hd : descendant (Module [sample_caller]) sample_caller).
  { eapply desc_step; [|apply desc_self]. repeat constructor. }
  assert (Hw : within sample_caller sample_method_call).
  { apply (within_step _ (Expr sample_method_call)).
    - repeat constructor.
    - reflexivity.
    - apply within_child. repeat constructor. }
  destruct (call_candidate_by_shape "m.py" (Module [sample_caller])
              sample_caller "g" (Attribute (Name "obj") "m")
              [Call (Name "f") [] []] [] Hd eq_refl Hw)
    as (Hrun & _ & Hshape & _).
  split; [exact Hrun|]. exact (Hshape "obj" "m" eq_refl).
Defined.

(** C6. A call without an enclosing function declaration emits no edge.
    The edges of a run are those of the runs on the outermost function
    declarations of the tree, in order, and of nothing else: whatever lies
    outside every declaration, class bodies included, adds nothing, also
    when it comes after a declaration. The outermost declarations are the
    declarations without an enclosing one. A call without an enclosing
    declaration is visited with the slot empty, and its visit appends the
    edges of its sub-expressions only. *)
Theorem module_scope_call_emits_nothing (file_path : string) (tree : node) :
  parse_function_calls file_path tree =
    outermost_declarations tree ≫= parse_function_calls file_path
  ∧ (∀ d, d ∈ outermost_declarations tree ↔
          at_module_scope tree d ∧ is_Some (is_function_def d))
  ∧ (∀ func args keywords,
       at_module_scope tree (Call func args keywords) →
       (∃ l1 l2, parse_function_calls file_path tree =
          l1 ++ emitted file_path None (Call func args keywords) ++ l2)
       ∧ emitted file_path None (Call func args keywords) =
         (func :: args ++ keywords) ≫= emitted file_path None)
  ∧ (no_function_def tree = true → parse_function_calls file_path tree = []).
Proof.
  split; [apply emitted_outermost|]. split; [apply outermost_declarations_elem|].
  split.
  - intros func args keywords Hs. split.
    + by apply emitted_at_module_scope.
    + by rewrite emitted_eq.
  - apply emitted_module_scope.
Qed.

Lemma module_scope_call_emits_nothing_witness :
  parse_function_calls "m.py" sample_call_after_declaration = []
  ∧ parse_function_calls "m.py" sample_module_scope = [].
Proof.
  split.
  - rewrite (proj1 (module_scope_call_emits_nothing "m.py"
                      sample_call_after_declaration)).
    reflexivity.
  - apply (proj2 (proj2 (proj2 (module_scope_call_emits_nothing "m.py"
                                  sample_module_scope)))).
    vm_compute. reflexivity.
Defined.

(** ** Import edges *)

Lemma string_app_cons (x : ascii) (a b : string) :
  String x a +:+ b = String x (a +:+ b).
Proof. reflexivity. Qed.

Lemma string_app_assoc (a b c : string) : (a +:+ b) +:+ c = a +:+ (b +:+ c).
Proof.
  induction a as [|x a IH]; [done|]. by rewrite !string_app_cons, IH.
Qed.

Lemma split_not_nil (c : ascii) (s : string) : split c s ≠ [].
Proof.
  induction s as [|a s IH]; simpl; [done|].
  destruct (Ascii.eqb a c); [done|]. by destruct (split c s).
Qed.

Lemma endswith_app (c : ascii) (a b : string) :
  str_truthy b = true → endswith c (a +:+ b) = endswith c b.
Proof.
  intros Hb. induction a as [|x a IH]; [done|].
  rewrite string_app_cons. cbn [endswith]. rewrite IH.
  destruct (a +:+ b) eqn:E; [|done]. exfalso.
  destruct a as [|y a]; [change (b = EmptyString) in E; by subst|].
  rewrite string_app_cons in E. discriminate E.
Qed.

Lemma not_contains_startswith (c : ascii) (s : string) :
  contains c s = false → startswith c s = false.
Proof. destruct s; simpl; [done|]. by intros [? ?]%orb_false_elim. Qed.

Lemma not_contains_endswith (c : ascii) (s : string) :
  contains c s = false → endswith c s = false.
Proof.
  induction s as [|a s IH]; simpl; [done|].
  intros [Ha Hs]%orb_false_elim. destruct s; [done|]. by apply IH.
Qed.

Lemma identifier_like_spec (s : string) :
  identifier_like s = true →
  str_truthy s = true ∧ contains "." s = false ∧ contains sep s = false.
Proof.
  unfold identifier_like. intros [[? ?%negb_true_iff]%andb_prop ?%negb_true_iff]%andb_prop.
  done.
Qed.

(** On identifiers [posixpath.join] is the plain join with the separator. *)
Lemma posix_join_plain (a : string) (p : list string) :
  str_truthy a = true →
  endswith sep a = false →
  forallb identifier_like p = true →
  posix_join a p = join_with (String sep EmptyString) (a :: p).
Proof.
  revert a. induction p as [|b p IH]; intros a Ha He Hp; [done|].
  simpl in Hp. apply andb_prop in Hp as [Hb Hp].
  apply identifier_like_spec in Hb as (Hb & _ & Hs).
  cbn [posix_join]. rewrite (not_contains_startswith _ _ Hs), Ha, He.
  cbn [negb orb]. rewrite IH; [| |  |done].
  - cbn [join_with]. destruct p; [done|]. by rewrite !string_app_assoc.
  - by destruct a.
  - rewrite endswith_app by done. rewrite string_app_cons. cbn [endswith].
    destruct b; [done|]. by apply not_contains_endswith.
Qed.

Lemma potential_path_total (m : string) : is_Some (potential_path m).
Proof.
  unfold potential_path. pose proof (split_not_nil "." m).
  by destruct (split "." m).
Qed.

Lemma potential_path_spec (m : string) :
  dotted_name m = true → potential_path m = Some (spec_to_file m).
Proof.
  unfold dotted_name, potential_path, spec_to_file.
  pose proof (split_not_nil "." m) as Hn.
  destruct (split "." m) as [|a p]; [done|]. simpl. intros [Ha Hp]%andb_prop.
  apply identifier_like_spec in Ha as (Ha & _ & Hs).
  rewrite posix_join_plain; [done|done| |done]. by apply not_contains_endswith.
Qed.

(** No step of the loop of [parse_imports] raises. *)
Lemma import_edges_total (file_path : string) (n : node) :
  is_Some (import_edges file_path n).
Proof.
  destruct n as [ns|m ns lv| | | | | | | |]; simpl; try done.
  - apply mapM_is_Some, Forall_forall. intros a _. simpl.
    by destruct (potential_path_total (alias_name a)) as [p ->].
  - destruct (opt_truthy m); [|done].
    by destruct (potential_path_total (default EmptyString m)) as [p ->].
Qed.

Lemma parse_imports_loop_total (file_path : string) (nodes : list node)
    (acc : list ImportRelation) :
  is_Some (parse_imports_loop file_path nodes acc).
Proof.
  revert acc. induction nodes as [|n nodes IH]; intros acc; simpl; [done|].
  destruct (import_edges_total file_path n) as [es ->]. simpl. apply IH.
Qed.

Lemma parse_imports_total (tree : node) (file_path : string) :
  is_Some (parse_imports tree file_path).
Proof. apply parse_imports_loop_total. Qed.

Lemma import_edges_spec (file_path : string) (n : node) :
  well_formed_node n = true →
  import_edges file_path n = Some (spec_import_edges file_path n).
Proof.
  destruct n as [ns|m ns lv| | | | | | | |]; simpl; try done.
  - intros Hns. apply mapM_Some, Forall2_fmap_r, Forall_Forall2_diag, Forall_forall.
    intros a Ha. rewrite forallb_forall in Hns.
    by rewrite potential_path_spec by by apply Hns, list_elem_of_In.
  - destruct m as [m|]; simpl; [|done]. intros Hm.
    rewrite potential_path_spec by done. simpl.
    destruct m; [done|done].
Qed.

Lemma parse_imports_loop_spec (file_path : string) (nodes : list node)
    (acc : list ImportRelation) :
  Forall (λ n, well_formed_node n = true) nodes →
  parse_imports_loop file_path nodes acc =
  Some (acc ++ (nodes ≫= spec_import_edges file_path)).
Proof.
  intros H. revert acc. induction H as [|n nodes Hn _ IH]; intros acc; simpl.
  - by rewrite app_nil_r.
  - rewrite import_edges_spec by done. simpl. rewrite IH.
    by rewrite <- app_assoc.
Qed.

(** C7. On a well-formed tree the import edges are those the
    specification words: per plain import statement one edge per alias, with
    [to_file] the module path split on the dot, joined with the separator
    and extended by [.py], and [import_name] the module path itself; per
    from-import with a module one edge per imported symbol, with the same
    [to_file] and the name [module.symbol]; none for a from-import without a
    module. [parse_imports] collects these over the walk of the tree. *)
Theorem import_edges_as_specified (file_path : string) :
  (∀ names, well_formed_node (Import names) = true →
     import_edges file_path (Import names) =
     Some ((λ a, mkImportRelation file_path (spec_to_file (alias_name a))
                   (alias_name a)) <$> names))
  ∧ (∀ m names level, dotted_name m = true →
       import_edges file_path (ImportFrom (Some m) names level) =
       Some ((λ a, mkImportRelation file_path (spec_to_file m)
                     (m +:+ "." +:+ alias_name a)) <$> names))
  ∧ (∀ names level,
       import_edges file_path (ImportFrom None names level) = Some [])
  ∧ (∀ tree, well_formed tree = true →
       parse_imports tree file_path =
       Some (ast_walk tree ≫= spec_import_edges file_path)).
Proof.
  repeat split.
  - intros names H. by rewrite import_edges_spec.
  - intros m names level H. by rewrite import_edges_spec.
  - intros tree H. unfold parse_imports. rewrite parse_imports_loop_spec; [done|].
    apply Forall_forall. intros n Hn. unfold well_formed in H.
    rewrite forallb_forall in H. by apply H, list_elem_of_In.
Qed.

Lemma import_edges_as_specified_witness :
  parse_imports sample_imports "m.py" =
  Some [mkImportRelation "m.py" "os/path.py" "os.path";
        mkImportRelation "m.py" "pkg/util.py" "pkg.util.helper"].
Proof.
  apply (proj2 (proj2 (proj2 (import_edges_as_specified "m.py"))) sample_imports).
  vm_compute. reflexivity.
Defined.

(** ** One file *)

Lemma extract_steps (file_path : string) (nodes : list node)
    (fns : list FunctionNode) (cls : list ClassNode) (fmap : gmap string string) :
  foldl (extract_step file_path) (fns, cls, fmap) nodes =
  (fns ++ omap (function_node_of file_path) nodes,
   cls ++ omap (class_node_of file_path) nodes,
   record_functions fmap (omap (function_node_of file_path) nodes)).
Proof.
  revert fns cls fmap. induction nodes as [|n nodes IH]; intros fns cls fmap.
  - by rewrite !app_nil_r.
  - cbn [foldl].
    destruct n; cbn [extract_step omap list_omap function_node_of class_node_of];
      rewrite IH; try done; by rewrite <- ?app_assoc.
Qed.

Lemma extract_functions_and_classes_eq (file_path : string) (tree : node)
    (fmap : gmap string string) :
  extract_functions_and_classes file_path tree fmap =
  (omap (function_node_of file_path) (ast_walk tree),
   omap (class_node_of file_path) (ast_walk tree),
   record_functions fmap (omap (function_node_of file_path) (ast_walk tree))).
Proof. unfold extract_functions_and_classes. by rewrite extract_steps. Qed.

Section DriverFacts.
Variable repo_path : Path.
Variable read_text : Path → option string.
Variable ast_parse : string → option node.
Variable visitor_overflows : node → bool.

(** What a file that parses adds to the aggregate, and what [parse_file]
    returns for it. *)
Lemma parse_file_parsed (data : RepositoryData) (file_path : Path) (tree : node) :
  parsed_tree read_text ast_parse file_path = Some tree →
  ∃ file_imports,
    parse_imports tree (get_relative_path repo_path file_path)
      = Some file_imports ∧
    parse_file repo_path read_text ast_parse visitor_overflows data file_path =
    (negb (visitor_overflows tree),
     add_parsed_file repo_path file_path tree file_imports
       (extracted_calls visitor_overflows
          (get_relative_path repo_path file_path) tree) data).
Proof.
  intros Ht. unfold parsed_tree in Ht.
  unfold parse_file, add_parsed_file, extracted_calls.
  destruct (read_text file_path) as [content|]; [|done]. simpl in Ht.
  rewrite Ht.
  destruct (parse_imports_total tree (get_relative_path repo_path file_path))
    as [file_imports Hi].
  exists file_imports. split; [done|].
  rewrite Hi, extract_functions_and_classes_eq.
  destruct (visitor_overflows tree); simpl; [|done].
  by rewrite app_nil_r.
Qed.

Lemma parse_file_failed (data : RepositoryData) (file_path : Path) :
  parsed_tree read_text ast_parse file_path = None →
  parse_file repo_path read_text ast_parse visitor_overflows data file_path = (false, data).
Proof.
  unfold parsed_tree, parse_file. intros Ht.
  destruct (read_text file_path) as [content|]; [|done]. simpl in Ht.
  by rewrite Ht.
Qed.
End DriverFacts.

(** C10. A failure to read or to parse is atomic: [parse_file] returns
    [False] and the aggregate, its five sequences and its table, is the
    very one it was called with. *)
Theorem parse_failure_leaves_aggregate_unchanged (repo_path : Path)
    (read_text : Path → option string) (ast_parse : string → option node)
    (visitor_overflows : node → bool)
    (data : RepositoryData) (file_path : Path) :
  (read_text file_path = None
   ∨ ∃ content, read_text file_path = Some content ∧ ast_parse content = None) →
  parse_file repo_path read_text ast_parse visitor_overflows data file_path = (false, data).
Proof.
  intros H. apply parse_file_failed. unfold parsed_tree.
  by destruct H as [->|(content & -> & H)].
Qed.

(** ** The driver loop *)

Section LoopFacts.
Variable repo_path : Path.
Variable read_text : Path → option string.
Variable ast_parse : string → option node.
Variable visitor_overflows : node → bool.

Local Abbreviation run := (parse_files repo_path read_text ast_parse visitor_overflows).
Local Abbreviation fails := (fails_to_parse read_text ast_parse).

Lemma fails_to_parse_spec (p : Path) :
  fails p = true ↔ parsed_tree read_text ast_parse p = None.
Proof. unfold fails_to_parse. apply bool_decide_eq_true. Qed.

Lemma parse_files_failed (p : Path) (l : list Path) (data : RepositoryData)
    (c : nat) :
  fails p = true → run (p :: l) data c = run l data c.
Proof.
  intros H%fails_to_parse_spec. cbn [parse_files].
  by rewrite (parse_file_failed repo_path _ _ visitor_overflows _ _ H).
Qed.

Lemma parse_files_parsed (p : Path) (l : list Path) (data : RepositoryData)
    (c : nat) :
  fails p = false →
  ∃ tree file_imports,
    parsed_tree read_text ast_parse p = Some tree ∧
    parse_imports tree (get_relative_path repo_path p) = Some file_imports ∧
    run (p :: l) data c =
    run l (add_parsed_file repo_path p tree file_imports
             (extracted_calls visitor_overflows
                (get_relative_path repo_path p) tree) data)
      (if visitor_overflows tree then c else S c).
Proof.
  intros H. destruct (parsed_tree read_text ast_parse p) as [tree|] eqn:Ht.
  - destruct (parse_file_parsed repo_path _ _ visitor_overflows data p tree Ht)
      as (fi & Hi & Hp).
    exists tree, fi. split; [done|]. split; [done|].
    cbn [parse_files]. rewrite Hp. by destruct (visitor_overflows tree).
  - apply fails_to_parse_spec in Ht. congruence.
Qed.

(** A file that fails to parse is as good as absent from the discovered
    list. *)
Lemma parse_files_skip (l : list Path) (data : RepositoryData) (c : nat) :
  run l data c = run (filter (λ p, fails p = false) l) data c.
Proof.
  revert data c. induction l as [|p l IH]; intros data c; [done|].
  destruct (fails p) eqn:Hp.
  - rewrite parse_files_failed by done. rewrite filter_cons_False by congruence.
    apply IH.
  - rewrite filter_cons_True by done.
    cbn [parse_files].
    destruct (parse_file repo_path read_text ast_parse visitor_overflows data p)
      as [[] data']; apply IH.
Qed.

Lemma file_fails_spec (p : Path) :
  file_fails read_text ast_parse visitor_overflows p = true ↔
  parsed_tree read_text ast_parse p = None
  ∨ ∃ tree, parsed_tree read_text ast_parse p = Some tree
            ∧ visitor_overflows tree = true.
Proof.
  unfold file_fails, visitor_fails. rewrite orb_true_iff, fails_to_parse_spec.
  destruct (parsed_tree read_text ast_parse p) as [t|]; split.
  - intros [?|H]; [done|]. right. by exists t.
  - intros [?|(t' & [= <-] & H)]; [done|]. by right.
  - by left.
  - by left.
Qed.

(** [parse_file] returns [False] on the files that fail, and on no other. *)
Lemma parse_file_false (data : RepositoryData) (p : Path) :
  (parse_file repo_path read_text ast_parse visitor_overflows data p).1 = false
  ↔ file_fails read_text ast_parse visitor_overflows p = true.
Proof.
  rewrite file_fails_spec.
  destruct (parsed_tree read_text ast_parse p) as [t|] eqn:Ht.
  - destruct (parse_file_parsed repo_path _ _ visitor_overflows data p t Ht)
      as (fi & _ & ->). simpl. rewrite negb_false_iff. split.
    + intros H. right. by exists t.
    + by intros [?|(t' & [= <-] & H)].
  - rewrite (parse_file_failed repo_path _ _ visitor_overflows data p Ht).
    simpl. split; [by left|done].
Qed.

Lemma parse_files_count (l : list Path) (data : RepositoryData) (c : nat) :
  (run l data c).2
  + length (filter (λ p, file_fails read_text ast_parse visitor_overflows p
                         = true) l)
  = c + length l.
Proof.
  revert data c. induction l as [|p l IH]; intros data c; [simpl; lia|].
  pose proof (parse_file_false data p) as Hf.
  cbn [parse_files].
  destruct (parse_file repo_path read_text ast_parse visitor_overflows data p)
    as [[] data']; simpl in Hf.
  - rewrite filter_cons_False by (intros H; by apply Hf in H).
    specialize (IH data' (S c)). simpl. lia.
  - rewrite filter_cons_True by by apply Hf.
    specialize (IH data' c). simpl. lia.
Qed.

Lemma parse_files_file_count (l : list Path) (data : RepositoryData) (c : nat) :
  length (files (run l data c).1) + length (filter (λ p, fails p = true) l)
  = length (files data) + length l.
Proof.
  revert data c. induction l as [|p l IH]; intros data c; [simpl; lia|].
  destruct (fails p) eqn:Hp.
  - rewrite parse_files_failed by done. rewrite filter_cons_True by done.
    specialize (IH data c). simpl. lia.
  - destruct (parse_files_parsed p l data c Hp) as (t & fi & _ & _ & ->).
    rewrite filter_cons_False by congruence.
    match goal with
    | |- context [run l ?d ?k] => specialize (IH d k)
    end.
    cbn [add_parsed_file files] in IH. rewrite length_app in IH. simpl in IH.
    simpl. lia.
Qed.
End LoopFacts.

(** What makes a file fail: it cannot be read, its text does not parse, or
    the call visitor raises on its tree. *)
Lemma file_fails_cases (read_text : Path → option string)
    (ast_parse : string → option node) (visitor_overflows : node → bool)
    (p : Path) :
  file_fails read_text ast_parse visitor_overflows p = true ↔
  read_text p = None
  ∨ ∃ content, read_text p = Some content
      ∧ (ast_parse content = None
         ∨ ∃ tree, ast_parse content = Some tree
                   ∧ visitor_overflows tree = true).
Proof.
  rewrite file_fails_spec. unfold parsed_tree.
  destruct (read_text p) as [content|]; simpl.
  - split.
    + intros [H|(t & H & Ho)]; right; exists content; (split; [done|]).
      * by left.
      * right. by exists t.
    + intros [?|(c & [= <-] & [H|(t & H & Ho)])]; [done|by left|].
      right. by exists t.
  - split; intros _; by left.
Qed.

(** C5, as the code has it. [parse_file] returns [False] on a file that
    cannot be read, on one whose text does not parse, and on one on whose
    tree the call visitor raises, and on no other. The run over any list of
    files returns, and its success count is the number of discovered files
    minus the number of these files. A file that cannot be read or parsed is
    skipped: the run is the run over the list without such files, and the
    aggregate holds one file node for each file that parses. *)
Theorem parse_failures_are_skipped (repo_path : Path)
    (read_text : Path → option string) (ast_parse : string → option node)
    (visitor_overflows : node → bool)
    (find_python_files : list Path) :
  let result :=
    parse_repository repo_path read_text ast_parse visitor_overflows
      find_python_files in
  let fails := file_fails read_text ast_parse visitor_overflows in
  let failed := filter (λ p, fails p = true) find_python_files in
  let unparsed :=
    filter (λ p, fails_to_parse read_text ast_parse p = true) find_python_files in
  let parsed :=
    filter (λ p, fails_to_parse read_text ast_parse p = false) find_python_files in
  (∀ data p,
     (parse_file repo_path read_text ast_parse visitor_overflows data p).1
       = false ↔ fails p = true)
  ∧ (∀ p, fails p = true ↔
       read_text p = None
       ∨ ∃ content, read_text p = Some content
           ∧ (ast_parse content = None
              ∨ ∃ tree, ast_parse content = Some tree
                        ∧ visitor_overflows tree = true))
  ∧ result.2 = length find_python_files - length failed
  ∧ result =
      parse_repository repo_path read_text ast_parse visitor_overflows parsed
  ∧ length (files result.1) = length find_python_files - length unparsed.
Proof.
  intros result fails failed unparsed parsed.
  subst result fails failed unparsed parsed. unfold parse_repository.
  pose proof (parse_files_count repo_path read_text ast_parse visitor_overflows
                find_python_files empty_data 0) as Hc.
  pose proof (parse_files_file_count repo_path read_text ast_parse
                visitor_overflows find_python_files empty_data 0) as Hf.
  cbn [empty_data files length] in Hf.
  split; [apply parse_file_false|].
  split; [apply file_fails_cases|].
  split; [lia|]. split; [apply parse_files_skip|lia].
Qed.

(** The success count is not the number of discovered files minus the
    number of files that fail to read or parse: [a.py] and [deep.py] both
    parse, and the run over the two counts one. *)
Lemma success_count_beyond_parse_failures :
  let discovered := [sample_repo ++ ["a.py"]; sample_repo ++ ["deep.py"]] in
  let result :=
    parse_repository sample_repo sample_read_text sample_ast_parse
      sample_visitor_overflows discovered in
  let unparsed :=
    filter (λ p, fails_to_parse sample_read_text sample_ast_parse p = true)
      discovered in
  unparsed = []
  ∧ result.2 = 1
  ∧ result.2 ≠ length discovered - length unparsed
  ∧ relative_path <$> files result.1 = ["a.py"; "deep.py"].
Proof. by vm_compute. Qed.

(** ** The functions of the aggregate and the name table *)

Lemma record_functions_app (m : gmap string string) (a b : list FunctionNode) :
  record_functions m (a ++ b) = record_functions (record_functions m a) b.
Proof. apply foldl_app. Qed.

(** Last write wins: a name maps to the id of the last function of that
    name in the recorded sequence. *)
Lemma record_functions_lookup (m : gmap string string) (fns : list FunctionNode)
    (name : string) :
  record_functions m fns !! name =
  match last (filter (λ f, fn_name f = name) fns) with
  | Some f => Some (fn_id f)
  | None => m !! name
  end.
Proof.
  induction fns as [|f fns IH] using rev_ind; [done|].
  rewrite record_functions_app, filter_app. cbn [record_functions foldl].
  destruct (decide (fn_name f = name)) as [Hf|Hf].
  - rewrite filter_cons_True, filter_nil, last_snoc by done.
    rewrite Hf. apply lookup_insert_eq.
  - rewrite filter_cons_False, filter_nil, app_nil_r by done.
    rewrite lookup_insert_ne by done. apply IH.
Qed.

Lemma function_node_of_spec (file_path : string) (d : node) (f : FunctionNode) :
  function_node_of file_path d = Some f →
  is_function_def d = Some (fn_name f)
  ∧ fn_id f = function_id file_path (fn_name f)
  ∧ fn_file_path f = file_path.
Proof. destruct d; simpl; try done; by intros [= <-]. Qed.

Lemma function_node_of_def (file_path : string) (d : node) (name : string) :
  is_function_def d = Some name →
  ∃ f, function_node_of file_path d = Some f ∧ fn_name f = name.
Proof. destruct d; simpl; try done; intros [= <-]; by eexists. Qed.

Section TableFacts.
Variable repo_path : Path.
Variable read_text : Path → option string.
Variable ast_parse : string → option node.
Variable visitor_overflows : node → bool.

Local Abbreviation run := (parse_files repo_path read_text ast_parse visitor_overflows).
Local Abbreviation rel := (get_relative_path repo_path).
Local Abbreviation tree_of := (parsed_tree read_text ast_parse).
Local Abbreviation functions_of := (file_functions repo_path read_text ast_parse).

(** An invariant of the aggregate holds of the result when every parsed file
    keeps it. *)
Lemma parse_files_invariant (P : RepositoryData → Prop) (l : list Path)
    (data : RepositoryData) (c : nat) :
  P data →
  (∀ d p t fi, P d → p ∈ l → tree_of p = Some t →
     parse_imports t (rel p) = Some fi →
     P (add_parsed_file repo_path p t fi
          (extracted_calls visitor_overflows (rel p) t) d)) →
  P (run l data c).1.
Proof.
  revert data c. induction l as [|p l IH]; intros data c Hd Hstep; [done|].
  destruct (fails_to_parse read_text ast_parse p) eqn:Hp.
  - rewrite parse_files_failed by done. apply IH; [done|].
    intros d q t fi ? ?. apply Hstep; [done|by right].
  - destruct (parse_files_parsed repo_path _ _ visitor_overflows p l data c Hp)
      as (t & fi & Ht & Hi & ->).
    apply IH; [apply Hstep; [done|left|done|done]|].
    intros d q t' fi' ? ?. apply Hstep; [done|by right].
Qed.

Lemma parse_files_functions (l : list Path) (data : RepositoryData) (c : nat) :
  functions (run l data c).1 = functions data ++ (l ≫= functions_of)
  ∧ function_map (run l data c).1 =
    record_functions (function_map data) (l ≫= functions_of).
Proof.
  revert data c. induction l as [|p l IH]; intros data c.
  - simpl. by rewrite app_nil_r.
  - rewrite bind_cons. unfold file_functions at 1 3.
    destruct (fails_to_parse read_text ast_parse p) eqn:Hp.
    + rewrite parse_files_failed by done.
      apply fails_to_parse_spec in Hp. rewrite Hp. apply IH.
    + destruct (parse_files_parsed repo_path _ _ visitor_overflows p l data c Hp)
        as (t & fi & Ht & Hi & ->).
      rewrite Ht.
      match goal with
      | |- context [run l ?d ?k] => destruct (IH d k) as [-> ->]
      end.
      cbn [add_parsed_file functions function_map].
      by rewrite record_functions_app, <- app_assoc.
Qed.

Lemma file_functions_elem (p : Path) (f : FunctionNode) :
  f ∈ functions_of p ↔
  ∃ t d, tree_of p = Some t ∧ descendant t d
         ∧ function_node_of (rel p) d = Some f.
Proof.
  unfold file_functions. destruct (tree_of p) as [t|].
  - rewrite list_elem_of_omap. split.
    + intros (d & Hd%ast_walk_elem & Hf). by exists t, d.
    + intros (t' & d & [= <-] & Hd & Hf). exists d. by rewrite ast_walk_elem.
  - split; [by intros ?%elem_of_nil|]. by intros (? & ? & ? & _).
Qed.
End TableFacts.

(** C4. The table maps every name to the id of the function of that name
    discovered last; so when two files each define [dup], the table holds
    one mapping for [dup], to the id in the later file when no file after it
    defines [dup] again, while the functions of the aggregate hold an entry
    for each of the two. *)
Theorem name_table_last_write_wins (repo_path : Path)
    (read_text : Path → option string) (ast_parse : string → option node)
    (visitor_overflows : node → bool)
    (find_python_files : list Path) :
  let data :=
    (parse_repository repo_path read_text ast_parse visitor_overflows find_python_files).1 in
  let tree_of := parsed_tree read_text ast_parse in
  let rel := get_relative_path repo_path in
  (∀ name, function_map data !! name =
     fn_id <$> last (filter (λ f, fn_name f = name) (functions data)))
  ∧ (∀ pre p1 mid p2 post t1 t2 d1 d2 dup,
       find_python_files = pre ++ p1 :: mid ++ p2 :: post →
       tree_of p1 = Some t1 → descendant t1 d1 → is_function_def d1 = Some dup →
       tree_of p2 = Some t2 → descendant t2 d2 → is_function_def d2 = Some dup →
       (∀ p t d, p ∈ post → tree_of p = Some t → descendant t d →
          is_function_def d ≠ Some dup) →
       function_map data !! dup = Some (function_id (rel p2) dup)
       ∧ (∃ f1, f1 ∈ functions data ∧ fn_name f1 = dup
               ∧ fn_id f1 = function_id (rel p1) dup ∧ fn_file_path f1 = rel p1)
       ∧ (∃ f2, f2 ∈ functions data ∧ fn_name f2 = dup
               ∧ fn_id f2 = function_id (rel p2) dup ∧ fn_file_path f2 = rel p2)
       ∧ (2 ≤ length (filter (λ f, fn_name f = dup) (functions data)))%nat).
Proof.
  intros data tree_of rel.
  destruct (parse_files_functions repo_path read_text ast_parse visitor_overflows
              find_python_files empty_data 0) as [Hfns Hmap].
  fold (parse_repository repo_path read_text ast_parse visitor_overflows find_python_files) in *.
  fold data in Hfns, Hmap. cbn [empty_data functions function_map app] in *.
  assert (Hlast : ∀ name, function_map data !! name =
    fn_id <$> last (filter (λ f, fn_name f = name) (functions data))).
  { intros name. rewrite Hmap, Hfns, record_functions_lookup.
    by destruct (last _). }
  split; [done|].
  intros pre p1 mid p2 post t1 t2 d1 d2 dup Hl Ht1 Hd1 Hn1 Ht2 Hd2 Hn2 Hpost.
  destruct (function_node_of_def (rel p1) d1 dup Hn1) as (f1 & Hf1 & Hname1).
  destruct (function_node_of_def (rel p2) d2 dup Hn2) as (f2 & Hf2 & Hname2).
  assert (Hin1 : f1 ∈ file_functions repo_path read_text ast_parse p1).
  { apply file_functions_elem. by exists t1, d1. }
  assert (Hin2 : f2 ∈ file_functions repo_path read_text ast_parse p2).
  { apply file_functions_elem. by exists t2, d2. }
  assert (Hsplit : functions data =
    ((pre ≫= file_functions repo_path read_text ast_parse)
       ++ file_functions repo_path read_text ast_parse p1
       ++ (mid ≫= file_functions repo_path read_text ast_parse))
    ++ file_functions repo_path read_text ast_parse p2
    ++ (post ≫= file_functions repo_path read_text ast_parse)).
  { rewrite Hfns, Hl. rewrite bind_app, bind_cons, bind_app, bind_cons.
    by rewrite <- !app_assoc. }
  assert (Hnone : filter (λ f, fn_name f = dup)
            (post ≫= file_functions repo_path read_text ast_parse) = []).
  { apply elem_of_nil_inv. intros f [Hf Hin]%list_elem_of_filter.
    apply list_elem_of_bind in Hin as (p & Hfp & Hp).
    apply file_functions_elem in Hfp as (t & d & Ht & Hd & Hfd).
    apply function_node_of_spec in Hfd as (Hdef & _).
    rewrite Hf in Hdef. by eapply Hpost. }
  assert (Hid2 : ∀ f, f ∈ filter (λ f, fn_name f = dup)
            (file_functions repo_path read_text ast_parse p2) →
            fn_id f = function_id (rel p2) dup).
  { intros f [Hf Hin]%list_elem_of_filter.
    apply file_functions_elem in Hin as (t & d & _ & _ & Hfd).
    apply function_node_of_spec in Hfd as (_ & Hid & _). by rewrite Hid, Hf. }
  assert (Hf2in : f2 ∈ filter (λ f, fn_name f = dup)
            (file_functions repo_path read_text ast_parse p2)).
  { by apply list_elem_of_filter. }
  assert (Hf1in : f1 ∈ filter (λ f, fn_name f = dup)
            (file_functions repo_path read_text ast_parse p1)).
  { by apply list_elem_of_filter. }
  split; [|split; [|split]].
  - rewrite Hlast, Hsplit, !filter_app, Hnone, app_nil_r.
    rewrite last_app.
    destruct (last (filter _ (file_functions _ _ _ p2))) as [f|] eqn:Hl2.
    + simpl. f_equal. apply Hid2. by apply last_Some_elem_of.
    + apply last_None in Hl2. rewrite Hl2 in Hf2in. by apply elem_of_nil in Hf2in.
  - exists f1. apply function_node_of_spec in Hf1 as (_ & Hid & Hpath).
    rewrite Hsplit, Hid, Hname1. repeat split; try done. set_solver.
  - exists f2. apply function_node_of_spec in Hf2 as (_ & Hid & Hpath).
    rewrite Hsplit, Hid, Hname2. repeat split; try done. set_solver.
  - rewrite Hsplit, !filter_app, !length_app.
    apply list_elem_of_split in Hf1in as (? & ? & ->).
    apply list_elem_of_split in Hf2in as (? & ? & ->).
    rewrite !length_app. simpl. lia.
Qed.

Lemma name_table_last_write_wins_witness :
  let data :=
    (parse_repository sample_repo sample_read_text sample_ast_parse sample_visitor_overflows
       [sample_repo ++ ["x.py"]; sample_repo ++ ["y.py"]]).1 in
  function_map data !! "dup" = Some "y.py::dup"
  ∧ (∃ f1, f1 ∈ functions data ∧ fn_name f1 = "dup"
          ∧ fn_id f1 = "x.py::dup" ∧ fn_file_path f1 = "x.py")
  ∧ (∃ f2, f2 ∈ functions data ∧ fn_name f2 = "dup"
          ∧ fn_id f2 = "y.py::dup" ∧ fn_file_path f2 = "y.py")
  ∧ (2 ≤ length (filter (λ f, fn_name f = "dup") (functions data)))%nat.
Proof.
  apply (proj2 (name_table_last_write_wins sample_repo sample_read_text
                  sample_ast_parse sample_visitor_overflows
                  [sample_repo ++ ["x.py"]; sample_repo ++ ["y.py"]])
           [] (sample_repo ++ ["x.py"]) [] (sample_repo ++ ["y.py"]) []
           tree_dup tree_dup
           (FunctionDef "dup" no_arguments [pass_stmt] [] None [] 1)
           (FunctionDef "dup" no_arguments [pass_stmt] [] None [] 1) "dup").
  - reflexivity.
  - reflexivity.
  - apply descendant_child. repeat constructor.
  - reflexivity.
  - reflexivity.
  - apply descendant_child. repeat constructor.
  - reflexivity.
  - intros p t d Hp. inversion Hp.
Defined.

(** ** The source side of the edges *)

Lemma import_edges_from_file (file_path : string) (n : node)
    (es : list ImportRelation) :
  import_edges file_path n = Some es →
  ∀ imp, imp ∈ es → from_file imp = file_path.
Proof.
  destruct n as [ns|m ns lv| | | | | | | |]; simpl;
    try (intros [= <-] imp Himp; by apply elem_of_nil in Himp).
  - intros H%mapM_Some_1 imp Himp.
    induction H as [|a e ns es Ha _ IH]; [by apply elem_of_nil in Himp|].
    apply elem_of_cons in Himp as [->|Himp]; [|by apply IH].
    simpl in Ha. destruct (potential_path (alias_name a)); by simplify_eq/=.
  - destruct (opt_truthy m);
      [|intros [= <-] imp Himp; by apply elem_of_nil in Himp].
    destruct (potential_path (default EmptyString m)); simpl; [|done].
    intros [= <-] imp (a & -> & _)%list_elem_of_fmap. done.
Qed.

Lemma parse_imports_from_file (tree : node) (file_path : string)
    (file_imports : list ImportRelation) :
  parse_imports tree file_path = Some file_imports →
  ∀ imp, imp ∈ file_imports → from_file imp = file_path.
Proof.
  unfold parse_imports.
  assert (H : ∀ nodes acc r,
    parse_imports_loop file_path nodes acc = Some r →
    (∀ imp, imp ∈ acc → from_file imp = file_path) →
    ∀ imp, imp ∈ r → from_file imp = file_path).
  { induction nodes as [|n nodes IH]; intros acc r; simpl.
    - by intros [= <-].
    - destruct (import_edges file_path n) as [es|] eqn:He; simpl; [|done].
      intros Hr Hacc. eapply IH; [done|].
      intros imp [?|?]%elem_of_app; [by apply Hacc|].
      by eapply import_edges_from_file. }
  intros Hr. eapply H; [done|]. by intros imp ?%elem_of_nil.
Qed.

(** An edge of a visit starts at the slot the visit began with or at the id
    of a declaration inside the visited tree. *)
Lemma emitted_from_function (file_path : string) (n : node) :
  ∀ cur c, c ∈ emitted file_path cur n →
    cur = Some (from_function c)
    ∨ ∃ d name, descendant n d ∧ is_function_def d = Some name
                ∧ from_function c = function_id file_path name.
Proof.
  induction n as [n IH] using node_children_ind. intros cur c.
  rewrite emitted_eq, elem_of_app, list_elem_of_bind.
  rewrite Forall_forall in IH. intros [Hown|(ch & Hc & Hch)].
  - left. destruct n; simpl in Hown; try by apply elem_of_nil in Hown.
    unfold record_call in Hown. simpl in Hown.
    destruct cur as [f|]; [|by apply elem_of_nil in Hown].
    destruct (str_truthy f), (opt_truthy (call_name n)); simpl in Hown;
      try by apply elem_of_nil in Hown.
    by apply list_elem_of_singleton in Hown as ->.
  - destruct (IH ch Hch _ _ Hc) as [Hin|(d & name & Hd & Hdef & Hfrom)].
    + unfold inner_function in Hin.
      destruct (is_function_def n) as [name|] eqn:Hn; [|by left].
      right. exists n, name. split; [constructor|]. split; [done|].
      by injection Hin as <-.
    + right. exists d, name. split; [by eapply desc_step|done].
Qed.

Lemma parse_function_calls_from (file_path : string) (tree : node)
    (c : CallRelation) :
  c ∈ parse_function_calls file_path tree →
  ∃ f, f ∈ omap (function_node_of file_path) (ast_walk tree)
       ∧ fn_id f = from_function c.
Proof.
  intros Hc. destruct (emitted_from_function file_path tree None c Hc)
    as [?|(d & name & Hd & Hdef & Hfrom)]; [done|].
  destruct (function_node_of_def file_path d name Hdef) as (f & Hf & Hname).
  exists f. split.
  - apply list_elem_of_omap. exists d. by rewrite ast_walk_elem.
  - apply function_node_of_spec in Hf as (_ & -> & _). by rewrite Hname.
Qed.

(** The edges [parse_file] keeps of a tree are edges of the visitor. *)
Lemma extracted_calls_elem (visitor_overflows : node → bool)
    (file_path : string) (tree : node) (c : CallRelation) :
  c ∈ extracted_calls visitor_overflows file_path tree →
  c ∈ parse_function_calls file_path tree.
Proof.
  unfold extracted_calls. destruct (visitor_overflows tree); [|done].
  by intros ?%elem_of_nil.
Qed.

(** C8. In the finished aggregate the source side of every edge is an
    entity of the same run: the [from_file] of an import edge is the
    relative path of a file of the aggregate, the [from_function] of a call
    edge is the id of a function of the aggregate. *)
Theorem edge_sources_exist (repo_path : Path)
    (read_text : Path → option string) (ast_parse : string → option node)
    (visitor_overflows : node → bool)
    (find_python_files : list Path) :
  let data :=
    (parse_repository repo_path read_text ast_parse visitor_overflows find_python_files).1 in
  (∀ imp, imp ∈ imports data →
     ∃ f, f ∈ files data ∧ relative_path f = from_file imp)
  ∧ (∀ c, c ∈ calls data →
       ∃ f, f ∈ functions data ∧ fn_id f = from_function c).
Proof.
  intros data. unfold data, parse_repository.
  apply (parse_files_invariant repo_path read_text ast_parse visitor_overflows
    (λ d, (∀ imp, imp ∈ imports d →
             ∃ f, f ∈ files d ∧ relative_path f = from_file imp)
          ∧ (∀ c, c ∈ calls d →
               ∃ f, f ∈ functions d ∧ fn_id f = from_function c))).
  - split; intros x Hx; by apply elem_of_nil in Hx.
  - intros d p t fi [Himp Hcall] _ _ Hfi.
    cbn [add_parsed_file files functions imports calls]. split.
    + intros imp [Hin|Hin]%elem_of_app.
      * destruct (Himp imp Hin) as (f & Hf & Hrel). exists f.
        split; [|done]. apply elem_of_app. by left.
      * eexists. split; [apply elem_of_app; right; by left|].
        simpl. symmetry. by eapply parse_imports_from_file.
    + intros c [Hin|Hin]%elem_of_app.
      * destruct (Hcall c Hin) as (f & Hf & Hid). exists f.
        split; [|done]. apply elem_of_app. by left.
      * apply extracted_calls_elem in Hin.
        destruct (parse_function_calls_from _ _ _ Hin) as (f & Hf & Hid).
        exists f. split; [|done]. apply elem_of_app. by right.
Qed.

(** ** Resolution of the call edges *)

Lemma ingest_call_spec (fmap : gmap string string) (store : GraphStore)
    (n : nat) (c : CallRelation) :
  function_nodes (ingest_call fmap (store, n) c).1 = function_nodes store
  ∧ ∀ e, e ∈ calls_edges (ingest_call fmap (store, n) c).1 ↔
         e ∈ calls_edges store ∨ resolves fmap store c e.
Proof.
  unfold ingest_call, resolves, run_calls_query.
  destruct (fmap !! to_function c) as [id|] eqn:Hid; simpl.
  - destruct (str_truthy id) eqn:Ht; simpl.
    + case_decide as Hn; simpl; (split; [done|]); intros e.
      * rewrite elem_of_union, elem_of_singleton. split.
        -- intros [->|?]; [right|by left]. exists id. by destruct Hn.
        -- intros [?|(id' & [= <-] & _ & _ & _ & ->)]; [by right|by left].
      * split; [by left|]. intros [?|(id' & [= <-] & _ & ? & ? & _)]; [done|].
        by destruct Hn.
    + split; [done|]. intros e. split; [by left|].
      intros [?|(id' & [= <-] & ? & _)]; [done|congruence].
  - split; [done|]. intros e. split; [by left|].
    by intros [?|(id' & ? & _)].
Qed.

Lemma ingest_fold_spec (fmap : gmap string string) (cs : list CallRelation)
    (store : GraphStore) (n : nat) :
  function_nodes (foldl (ingest_call fmap) (store, n) cs).1 = function_nodes store
  ∧ ∀ e, e ∈ calls_edges (foldl (ingest_call fmap) (store, n) cs).1 ↔
         e ∈ calls_edges store ∨ ∃ c, c ∈ cs ∧ resolves fmap store c e.
Proof.
  revert store n. induction cs as [|c cs IH]; intros store n.
  - split; [done|]. intros e. split; [by left|].
    by intros [?|(c & ?%elem_of_nil & _)].
  - cbn [foldl]. destruct (ingest_call fmap (store, n) c) as [store' n'] eqn:Hc.
    destruct (ingest_call_spec fmap store n c) as [Hn He]. rewrite Hc in Hn, He.
    simpl in Hn, He. destruct (IH store' n') as [IHn IHe].
    split; [congruence|]. intros e. rewrite IHe, He.
    assert (Hres : ∀ c', resolves fmap store' c' e ↔ resolves fmap store c' e).
    { intros c'. unfold resolves. by rewrite Hn. }
    split.
    + intros [[?|?]|(c' & ? & ?%Hres)]; [by left|right; exists c|right; exists c'];
        (split; [|done]); [left|by right].
    + intros [?|(c' & [->|?]%elem_of_cons & Hr)]; [by left; left|by left; right|].
      right. exists c'. by rewrite Hres.
Qed.

Lemma ingest_calls_spec (cs : list CallRelation) (fmap : gmap string string)
    (store : GraphStore) :
  function_nodes (ingest_calls cs fmap store).1 = function_nodes store
  ∧ ∀ e, e ∈ calls_edges (ingest_calls cs fmap store).1 ↔
         e ∈ calls_edges store ∨ ∃ c, c ∈ cs ∧ resolves fmap store c e.
Proof.
  destruct cs as [|c cs]; [|apply ingest_fold_spec].
  split; [done|]. intros e. split; [by left|].
  by intros [?|(c & ?%elem_of_nil & _)].
Qed.

Lemma get_relative_path_below (repo_path : Path) (parts : list string) :
  get_relative_path repo_path (repo_path ++ parts) = str_relative parts.
Proof.
  unfold get_relative_path.
  assert (relative_to (repo_path ++ parts) repo_path = Some parts) as ->; [|done].
  induction repo_path as [|b l IH]; simpl; [done|]. by rewrite String.eqb_refl.
Qed.

(** The ids of the table of a run are truthy. *)
Lemma function_map_ids_truthy (repo_path : Path)
    (read_text : Path → option string) (ast_parse : string → option node)
    (visitor_overflows : node → bool)
    (l : list Path) (name id : string) :
  function_map (parse_repository repo_path read_text ast_parse visitor_overflows l).1 !! name
    = Some id →
  str_truthy id = true.
Proof.
  unfold parse_repository.
  destruct (parse_files_functions repo_path read_text ast_parse visitor_overflows l empty_data 0)
    as [_ ->].
  rewrite record_functions_lookup. cbn [empty_data function_map].
  rewrite lookup_empty.
  destruct (last _) as [f|] eqn:Hl; [|done]. intros [= <-].
  apply last_Some_elem_of, list_elem_of_filter in Hl as [_ Hf].
  apply list_elem_of_bind in Hf as (p & Hf & _).
  apply file_functions_elem in Hf as (t & d & _ & _ & Hf).
  apply function_node_of_spec in Hf as (_ & -> & _). apply function_id_truthy.
Qed.

Lemma parse_files_calls (repo_path : Path) (read_text : Path → option string)
    (ast_parse : string → option node) (visitor_overflows : node → bool)
    (l : list Path) (data : RepositoryData) (c : nat) :
  calls (parse_files repo_path read_text ast_parse visitor_overflows l data c).1 =
  calls data ++ (l ≫= file_calls repo_path read_text ast_parse visitor_overflows).
Proof.
  revert data c. induction l as [|p l IH]; intros data c.
  - simpl. by rewrite app_nil_r.
  - rewrite bind_cons. unfold file_calls at 1.
    destruct (fails_to_parse read_text ast_parse p) eqn:Hp.
    + rewrite parse_files_failed by done.
      apply fails_to_parse_spec in Hp. rewrite Hp. apply IH.
    + destruct (parse_files_parsed repo_path _ _ visitor_overflows p l data c Hp)
        as (t & fi & Ht & Hi & ->).
      rewrite Ht, IH. cbn [add_parsed_file calls]. by rewrite <- app_assoc.
Qed.

(** C2. At ingestion a call edge is resolved by looking its [to_function]
    up in the table. When the lookup gives an id (ids of the table are
    truthy) and the two Function nodes are in the store, the relationship
    between them is in the store afterwards; every relationship that was not
    there before comes from such a resolved edge between two nodes of the
    store, so an edge whose lookup fails adds nothing, and the step for it
    leaves the store as it is. For the repository of [a.py] defining [foo]
    and [b.py] defining [bar] that calls [foo], in either discovery order
    (the call visitor does not raise on the tree of [b.py], which has five
    nodes on a path), the call is linked from [b.py::bar] to [a.py::foo]. *)
Theorem call_edges_resolved_by_name :
  (∀ cs fmap store c id,
     c ∈ cs → fmap !! to_function c = Some id → str_truthy id = true →
     from_function c ∈ function_nodes store → id ∈ function_nodes store →
     (from_function c, id) ∈ calls_edges (ingest_calls cs fmap store).1)
  ∧ (∀ cs fmap store a b,
       (a, b) ∈ calls_edges (ingest_calls cs fmap store).1 →
       (a, b) ∈ calls_edges store
       ∨ ∃ c, c ∈ cs ∧ from_function c = a ∧ fmap !! to_function c = Some b
              ∧ a ∈ function_nodes store ∧ b ∈ function_nodes store)
  ∧ (∀ fmap acc c, fmap !! to_function c = None → ingest_call fmap acc c = acc)
  ∧ (∀ repo_path read_text ast_parse visitor_overflows l name id,
       function_map
         (parse_repository repo_path read_text ast_parse visitor_overflows l).1
         !! name = Some id →
       str_truthy id = true)
  ∧ (∀ repo_path read_text ast_parse visitor_overflows l store,
       let a := repo_path ++ ["a.py"] in
       let b := repo_path ++ ["b.py"] in
       let data :=
         (parse_repository repo_path read_text ast_parse visitor_overflows l).1 in
       l = [a; b] ∨ l = [b; a] →
       parsed_tree read_text ast_parse a = Some tree_a →
       parsed_tree read_text ast_parse b = Some tree_b →
       visitor_overflows tree_b = false →
       "b.py::bar" ∈ function_nodes store →
       "a.py::foo" ∈ function_nodes store →
       mkCallRelation "b.py::bar" "foo" ∈ calls data
       ∧ function_map data !! "foo" = Some "a.py::foo"
       ∧ ("b.py::bar", "a.py::foo")
           ∈ calls_edges (ingest_calls (calls data) (function_map data) store).1).
Proof.
  assert (Hresolved : ∀ cs fmap store c id,
     c ∈ cs → fmap !! to_function c = Some id → str_truthy id = true →
     from_function c ∈ function_nodes store → id ∈ function_nodes store →
     (from_function c, id) ∈ calls_edges (ingest_calls cs fmap store).1).
  { intros cs fmap store c id Hc Hid Ht Hf Hi.
    apply (ingest_calls_spec cs fmap store). right. exists c. split; [done|].
    by exists id. }
  split; [done|]. split; [|split; [|split]].
  - intros cs fmap store a b [?|(c & Hc & id & Hid & _ & Hf & Hi & [= -> ->])]%
      (ingest_calls_spec cs fmap store); [by left|].
    right. by exists c.
  - intros fmap [store n] c Hc. unfold ingest_call. by rewrite Hc.
  - apply function_map_ids_truthy.
  - intros repo_path read_text ast_parse visitor_overflows l store a b data
      Hl Ha Hb Ho Hbar Hfoo.
    assert (Hcalls : mkCallRelation "b.py::bar" "foo" ∈ calls data
                     ∧ function_map data !! "foo" = Some "a.py::foo").
    { unfold data, parse_repository.
      rewrite parse_files_calls.
      destruct (parse_files_functions repo_path read_text ast_parse visitor_overflows l
                  empty_data 0) as [_ ->].
      destruct Hl as [-> | ->]; rewrite !bind_cons;
        change (@nil Path ≫= file_calls repo_path read_text ast_parse visitor_overflows)
          with (@nil CallRelation);
        change (@nil Path ≫= file_functions repo_path read_text ast_parse)
          with (@nil FunctionNode);
        unfold file_calls, file_functions, extracted_calls; fold a b;
        rewrite Ha, Hb, Ho;
        unfold a, b; rewrite !get_relative_path_below;
        destruct (visitor_overflows tree_a);
        (split; [vm_compute; repeat constructor|reflexivity]). }
    destruct Hcalls as [Hc Hm]. split; [done|]. split; [done|].
    by apply (Hresolved _ _ _ (mkCallRelation "b.py::bar" "foo")).
Qed.

Lemma call_edges_resolved_by_name_witness :
  let data :=
    (parse_repository sample_repo sample_read_text sample_ast_parse sample_visitor_overflows
       [sample_repo ++ ["a.py"]; sample_repo ++ ["b.py"]]).1 in
  let store := mkGraphStore {[ "a.py::foo"; "b.py::bar" ]} ∅ in
  mkCallRelation "b.py::bar" "foo" ∈ calls data
  ∧ function_map data !! "foo" = Some "a.py::foo"
  ∧ ("b.py::bar", "a.py::foo")
      ∈ calls_edges (ingest_calls (calls data) (function_map data) store).1.
Proof.
  apply (proj2 (proj2 (proj2 (proj2 call_edges_resolved_by_name)))
           sample_repo sample_read_text sample_ast_parse
           sample_visitor_overflows
           [sample_repo ++ ["a.py"]; sample_repo ++ ["b.py"]]
           (mkGraphStore {[ "a.py::foo"; "b.py::bar" ]} ∅)).
  - left. reflexivity.
  - reflexivity.
  - reflexivity.
  - reflexivity.
  - simpl. set_solver.
  - simpl. set_solver.
Defined.

(** ** Keys of the name table *)

Lemma contains_app (c : ascii) (a b : string) :
  contains c (a +:+ b) = contains c a || contains c b.
Proof.
  induction a as [|x a IH]; [done|]. rewrite string_app_cons. simpl.
  by rewrite IH, orb_assoc.
Qed.

Lemma dotted_contains_dot (receiver method : string) :
  contains "." (receiver +:+ "." +:+ method) = true.
Proof. rewrite contains_app. simpl. apply orb_true_r. Qed.

(** C9. With trees whose identifiers are identifiers (as [ast.parse] gives
    them), every key of the table is the declared name of a function of the
    aggregate and holds no dot; a class name is a key only when a function
    bears the same name; so a candidate of the form receiver, dot, method is
    not a key, and the ingestion step for such a call edge leaves the store
    as it is. *)
Theorem dotted_candidates_never_resolve (repo_path : Path)
    (read_text : Path → option string) (ast_parse : string → option node)
    (visitor_overflows : node → bool)
    (find_python_files : list Path) :
  (∀ text tree, ast_parse text = Some tree → well_formed tree = true) →
  let data :=
    (parse_repository repo_path read_text ast_parse visitor_overflows find_python_files).1 in
  (∀ key id, function_map data !! key = Some id →
     (∃ f, f ∈ functions data ∧ fn_name f = key ∧ fn_id f = id)
     ∧ contains "." key = false)
  ∧ (∀ cls, cls ∈ classes data →
       (∀ f, f ∈ functions data → fn_name f ≠ cls_name cls) →
       function_map data !! cls_name cls = None)
  ∧ (∀ receiver method,
       function_map data !! (receiver +:+ "." +:+ method) = None)
  ∧ (∀ call acc, contains "." (to_function call) = true →
       ingest_call (function_map data) acc call = acc).
Proof.
  intros Hwf data.
  destruct (parse_files_functions repo_path read_text ast_parse visitor_overflows
              find_python_files empty_data 0) as [Hfns Hmap].
  fold (parse_repository repo_path read_text ast_parse visitor_overflows find_python_files) in *.
  fold data in Hfns, Hmap. cbn [empty_data functions function_map app] in *.
  assert (Hkey : ∀ key id, function_map data !! key = Some id →
     (∃ f, f ∈ functions data ∧ fn_name f = key ∧ fn_id f = id)
     ∧ contains "." key = false).
  { intros key id. rewrite Hmap, record_functions_lookup, lookup_empty, <- Hfns.
    destruct (last _) as [f|] eqn:Hl; [|done]. intros [= <-].
    apply last_Some_elem_of, list_elem_of_filter in Hl as [Hname Hf].
    split; [by exists f|].
    rewrite Hfns in Hf. apply list_elem_of_bind in Hf as (p & Hf & _).
    apply file_functions_elem in Hf as (t & d & Ht & Hd & Hf).
    apply function_node_of_spec in Hf as (Hdef & _).
    assert (Hwt : well_formed t = true).
    { unfold parsed_tree in Ht. destruct (read_text p) as [text|]; [|done].
      by eapply Hwf. }
    unfold well_formed in Hwt. rewrite forallb_forall in Hwt.
    apply ast_walk_elem, list_elem_of_In, Hwt in Hd.
    assert (Hid : identifier_like (fn_name f) = true).
    { destruct d; simpl in Hdef; try done; by injection Hdef as <-. }
    apply identifier_like_spec in Hid as (_ & Hdot & _). by rewrite <- Hname. }
  assert (Hdotted : ∀ key, contains "." key = true →
            function_map data !! key = None).
  { intros key Hdot. destruct (function_map data !! key) as [id|] eqn:Hk; [|done].
    destruct (Hkey key id Hk) as [_ Hno]. congruence. }
  split; [done|]. split; [|split].
  - intros cls _ Hcls.
    destruct (function_map data !! cls_name cls) as [id|] eqn:Hk; [|done].
    destruct (Hkey _ _ Hk) as [(f & Hf & Hname & _) _]. by destruct (Hcls f).
  - intros receiver method. apply Hdotted, dotted_contains_dot.
  - intros call [store n] Hdot. unfold ingest_call. by rewrite Hdotted.
Qed.

Lemma sample_ast_parse_well_formed (text : string) (tree : node) :
  sample_ast_parse text = Some tree → well_formed tree = true.
Proof.
  unfold sample_ast_parse. repeat case_decide; intros [= <-]; by vm_compute.
Qed.

Lemma dotted_candidates_never_resolve_witness :
  let data :=
    (parse_repository sample_repo sample_read_text sample_ast_parse sample_visitor_overflows
       [sample_repo ++ ["a.py"]; sample_repo ++ ["b.py"]]).1 in
  function_map data !! "self.foo" = None
  ∧ ingest_call (function_map data) (mkGraphStore ∅ ∅, 0)
      (mkCallRelation "b.py::bar" "self.foo") = (mkGraphStore ∅ ∅, 0).
Proof.
  pose proof (dotted_candidates_never_resolve sample_repo sample_read_text
                sample_ast_parse sample_visitor_overflows
                [sample_repo ++ ["a.py"]; sample_repo ++ ["b.py"]]
                sample_ast_parse_well_formed) as (_ & _ & Hkey & Hstep).
  split.
  - exact (Hkey "self" "foo").
  - apply Hstep. reflexivity.
Defined.

Lemma parse_failure_leaves_aggregate_unchanged_witness :
  parse_file sample_repo sample_read_text sample_ast_parse sample_visitor_overflows empty_data
    (sample_repo ++ ["broken.py"]) = (false, empty_data).
Proof.
  apply (parse_failure_leaves_aggregate_unchanged sample_repo sample_read_text
           sample_ast_parse sample_visitor_overflows empty_data (sample_repo ++ ["broken.py"])).
  right. exists text_broken. split; reflexivity.
Defined.

(** * Further code: discovery, the aggregate, ingestion *)

Set Warnings "-clear-no-such-hyp".

(** ** config.py: the parsing settings

    Both are Python sets; the code only tests membership in the first and
    runs [any] over the second, so the order of the lists is immaterial. *)
Definition IGNORE_DIRECTORIES : list string :=
  [".git"; "__pycache__"; "venv"; "env"; ".venv"; "node_modules"].
Definition PYTHON_FILE_EXTENSIONS : list string := [".py"].

(** [s.endswith(suffix)] for a suffix of any length: some tail of [s] is the
    suffix. *)
Fixpoint str_endswith (suffix s : string) : bool :=
  String.eqb suffix s
  || match s with
     | EmptyString => false
     | String _ s' => str_endswith suffix s'
     end.

(** ** parser.py: find_python_files

    The directory tree as [os.walk] sees it: per directory the
    subdirectories and the other entries, each in listing order. A directory
    the walk cannot read or does not follow has no entries. *)
Inductive fs_dir : Type :=
| FsDir (dirs : list (string * fs_dir)) (files : list string).

(** [not d.startswith('.') and d not in Config.IGNORE_DIRECTORIES] *)
Definition keep_directory (d : string) : bool :=
  negb (startswith "." d) && bool_decide (d ∉ IGNORE_DIRECTORIES).

(** [any(file.endswith(ext) for ext in Config.PYTHON_FILE_EXTENSIONS)] *)
Definition is_python_file (file : string) : bool :=
  existsb (λ ext, str_endswith ext file) PYTHON_FILE_EXTENSIONS.

(** The loop over [os.walk(root)], top down: the directory list is pruned in
    place, the Python files of the directory are appended as
    [Path(root) / file], then the walk descends into the directories that
    were kept, in order. *)
Fixpoint walk_python_files (root : Path) (d : fs_dir) : list Path :=
  match d with
  | FsDir dirs files =>
      let fix walk_dirs (l : list (string * fs_dir)) : list Path :=
        match l with
        | [] => []
        | (name, sub) :: l' =>
            (if keep_directory name
             then walk_python_files (root ++ [name]) sub else [])
            ++ walk_dirs l'
        end in
      ((λ file, root ++ [file]) <$> List.filter is_python_file files)
      ++ walk_dirs dirs
  end.

Definition find_python_files (repo_path : Path) (tree : fs_dir) : list Path :=
  walk_python_files repo_path tree.

(** [discovered d parts]: [parts] names a Python file of [d] reached through
    directories that are all kept. *)
Inductive discovered : fs_dir → list string → Prop :=
| discovered_file dirs files file :
    file ∈ files → is_python_file file = true →
    discovered (FsDir dirs files) [file]
| discovered_below dirs files name sub parts :
    (name, sub) ∈ dirs → keep_directory name = true →
    discovered sub parts →
    discovered (FsDir dirs files) (name :: parts).

(** Every listing of the tree names each entry once. *)
Inductive listing_ok : fs_dir → Prop :=
| listing_ok_dir dirs files :
    NoDup dirs.*1 → NoDup files → Forall (λ e, listing_ok e.2) dirs →
    listing_ok (FsDir dirs files).

(** A sample tree: [main.py], [README.md] and a hidden file at the top, a
    package [pkg], and three directories the walk must not enter, one of
    them deep inside [pkg]. *)
Definition sample_fs : fs_dir :=
  FsDir [(".git", FsDir [] ["hook.py"]);
         ("pkg", FsDir [("__pycache__", FsDir [] ["util.cpython.py"]);
                        ("sub", FsDir [] ["deep.py"; "data.json"])]
                   ["util.py"; "notes.txt"]);
         ("venv", FsDir [("lib", FsDir [] ["site.py"])] [])]
        ["main.py"; "README.md"; ".hidden.py"].

Example find_python_files_sample :
  find_python_files sample_repo sample_fs =
  [sample_repo ++ ["main.py"]; sample_repo ++ [".hidden.py"];
   sample_repo ++ ["pkg"; "util.py"]; sample_repo ++ ["pkg"; "sub"; "deep.py"]].
Proof. reflexivity. Qed.

Example str_endswith_examples :
  str_endswith ".py" "a.py" = true ∧ str_endswith ".py" ".py" = true
  ∧ str_endswith ".py" "a.pyc" = false ∧ str_endswith ".py" "py" = false.
Proof. by vm_compute. Qed.

(** ** Discovery *)

Lemma fs_dir_children_ind (P : fs_dir → Prop) :
  (∀ dirs files, Forall (λ e, P e.2) dirs → P (FsDir dirs files)) →
  ∀ d, P d.
Proof.
  intros H. fix IH 1. intros [dirs files]. apply H.
  induction dirs as [|[name sub] l IHl]; constructor; [apply IH|apply IHl].
Qed.

Lemma walk_python_files_eq (root : Path) (dirs : list (string * fs_dir))
    (files : list string) :
  walk_python_files root (FsDir dirs files) =
  ((λ file, root ++ [file]) <$> List.filter is_python_file files)
  ++ (dirs ≫= λ e, if keep_directory e.1
                   then walk_python_files (root ++ [e.1]) e.2 else []).
Proof.
  cbn [walk_python_files]. f_equal.
  induction dirs as [|[name sub] l IH]; [done|].
  rewrite bind_cons. cbn [fst snd]. by rewrite IH.
Qed.

Lemma str_endswith_spec (suffix s : string) :
  str_endswith suffix s = true ↔ ∃ stem, s = stem +:+ suffix.
Proof.
  induction s as [|a s IH]; simpl.
  - rewrite orb_false_r, String.eqb_eq. split.
    + intros ->. by exists EmptyString.
    + intros ([|b stem] & H); [done|]. by rewrite string_app_cons in H.
  - rewrite orb_true_iff, String.eqb_eq, IH. split.
    + intros [->|(stem & ->)]; [by exists EmptyString|].
      by exists (String a stem).
    + intros ([|b stem] & H); [by left|]. right. exists stem.
      rewrite string_app_cons in H. by injection H.
Qed.

Lemma is_python_file_spec (file : string) :
  is_python_file file = true ↔ ∃ stem, file = stem +:+ ".py".
Proof.
  unfold is_python_file. simpl. rewrite orb_false_r. apply str_endswith_spec.
Qed.

Lemma walk_python_files_elem (d : fs_dir) :
  ∀ root p, p ∈ walk_python_files root d ↔
            ∃ parts, p = root ++ parts ∧ discovered d parts.
Proof.
  induction d as [dirs files IH] using fs_dir_children_ind. intros root p.
  rewrite Forall_forall in IH.
  rewrite walk_python_files_eq, elem_of_app, list_elem_of_fmap, list_elem_of_bind.
  split.
  - intros [(file & -> & Hf)|([name sub] & Hp & He)].
    + apply list_elem_of_In, filter_In in Hf as [Hf Hpy].
      exists [file]. split; [done|]. constructor; [by apply list_elem_of_In|done].
    + simpl in Hp. destruct (keep_directory name) eqn:Hk;
        [|by apply elem_of_nil in Hp].
      apply (IH _ He) in Hp as (parts & -> & Hd).
      exists (name :: parts). split; [by rewrite <- app_assoc|].
      by eapply discovered_below.
  - intros (parts & -> & Hd). inversion Hd as [? ? file Hf Hpy|? ? name sub ps He Hk Hs];
      subst.
    + left. exists file. split; [done|].
      apply list_elem_of_In, filter_In. split; [by apply list_elem_of_In|done].
    + right. exists (name, sub). split; [|done]. simpl. rewrite Hk.
      apply (IH _ He). exists ps. split; [by rewrite <- app_assoc|done].
Qed.

(** X1. The discovered files are exactly the entries with a Python
    extension that are reached from the root through kept directories only:
    nothing below a hidden or ignored directory is returned, whatever its
    depth, and nothing reachable is missed. *)
Theorem find_python_files_characterised (repo_path : Path) (tree : fs_dir)
    (p : Path) :
  p ∈ find_python_files repo_path tree ↔
  ∃ parts, p = repo_path ++ parts ∧ discovered tree parts.
Proof. apply walk_python_files_elem. Qed.

Lemma discovered_shape (d : fs_dir) (parts : list string) :
  discovered d parts →
  ∃ folders file,
    parts = folders ++ [file]
    ∧ Forall (λ name, keep_directory name = true) folders
    ∧ is_python_file file = true.
Proof.
  induction 1 as [dirs files file Hf Hpy|dirs files name sub parts _ Hk _ IH].
  - by exists [], file.
  - destruct IH as (folders & file & -> & Hfo & Hpy).
    exists (name :: folders), file. split; [done|]. split; [|done].
    by constructor.
Qed.

(** X2. Every discovered file lies below the repository root, so its
    relative path is the components below the root joined with the
    separator and never the absolute fall-back; its folders are neither
    hidden nor ignored and its name ends with the extension. The root itself
    is not tested: the statement holds for any root. *)
Theorem discovered_files_have_relative_paths (repo_path : Path)
    (tree : fs_dir) (p : Path) :
  p ∈ find_python_files repo_path tree →
  ∃ folders file stem,
    p = repo_path ++ folders ++ [file]
    ∧ file = stem +:+ ".py"
    ∧ Forall (λ name, startswith "." name = false
                      ∧ name ∉ IGNORE_DIRECTORIES) folders
    ∧ relative_to p repo_path = Some (folders ++ [file])
    ∧ get_relative_path repo_path p = join_with "/" (folders ++ [file]).
Proof.
  intros (parts & -> & Hd)%walk_python_files_elem.
  destruct (discovered_shape _ _ Hd) as (folders & file & -> & Hfo & Hpy).
  apply is_python_file_spec in Hpy as (stem & ->).
  exists folders, (stem +:+ ".py"), stem. split; [done|]. split; [done|].
  assert (Hrel : relative_to (repo_path ++ folders ++ [stem +:+ ".py"]) repo_path
                 = Some (folders ++ [stem +:+ ".py"])).
  { clear. induction repo_path as [|b l IH]; simpl; [done|].
    by rewrite String.eqb_refl. }
  split; [|split; [done|]].
  - eapply Forall_impl; [exact Hfo|]. intros name Hk. unfold keep_directory in Hk.
    apply andb_prop in Hk as [Hdot Hign]. split.
    + by apply negb_true_iff.
    + by apply bool_decide_eq_true in Hign.
  - unfold get_relative_path. rewrite Hrel. unfold str_relative.
    by destruct folders.
Qed.

Lemma discovered_files_have_relative_paths_witness :
  ∃ folders file stem,
    sample_repo ++ ["pkg"; "sub"; "deep.py"] = sample_repo ++ folders ++ [file]
    ∧ file = stem +:+ ".py"
    ∧ Forall (λ name, startswith "." name = false
                      ∧ name ∉ IGNORE_DIRECTORIES) folders
    ∧ relative_to (sample_repo ++ ["pkg"; "sub"; "deep.py"]) sample_repo
      = Some (folders ++ [file])
    ∧ get_relative_path sample_repo (sample_repo ++ ["pkg"; "sub"; "deep.py"])
      = join_with "/" (folders ++ [file]).
Proof.
  apply (discovered_files_have_relative_paths sample_repo sample_fs).
  vm_compute. repeat constructor.
Defined.

Lemma NoDup_list_filter {A} (f : A → bool) (l : list A) :
  NoDup l → NoDup (List.filter f l).
Proof.
  induction 1 as [|x l Hx _ IH]; simpl; [constructor|].
  destruct (f x); [|done]. constructor; [|done].
  intros Hin%list_elem_of_In%filter_In. apply Hx, list_elem_of_In. tauto.
Qed.

Lemma discovered_not_nil (d : fs_dir) : ¬ discovered d [].
Proof. inversion 1. Qed.

Lemma walk_python_files_NoDup (d : fs_dir) :
  listing_ok d → ∀ root, NoDup (walk_python_files root d).
Proof.
  induction d as [dirs files IH] using fs_dir_children_ind.
  intros Hok root. inversion Hok as [? ? Hdirs Hfiles Hsub]; subst.
  rewrite walk_python_files_eq. apply NoDup_app. split; [|split].
  - apply NoDup_fmap_2; [|by apply NoDup_list_filter].
    intros f1 f2 Hf. apply app_inv_head in Hf. by injection Hf.
  - intros p (file & -> & _)%list_elem_of_fmap
      ([name sub] & Hp & _)%list_elem_of_bind. simpl in Hp.
    destruct (keep_directory name); [|by apply elem_of_nil in Hp].
    apply walk_python_files_elem in Hp as (parts & Hp & Hd).
    rewrite <- app_assoc in Hp. apply app_inv_head in Hp. simpl in Hp.
    injection Hp as _ <-. by apply discovered_not_nil in Hd.
  - clear Hfiles Hok. induction dirs as [|[name sub] l IHl]; [constructor|].
    rewrite bind_cons. cbn [fst snd].
    apply Forall_cons in IH as [IHsub IHrest].
    apply Forall_cons in Hsub as [Hsubok Hrestok].
    rewrite fmap_cons in Hdirs. apply NoDup_cons in Hdirs as [Hname Hl].
    apply NoDup_app. split; [|split; [|by apply IHl]].
    + destruct (keep_directory name); [by apply IHsub|constructor].
    + intros p Hp ([name' sub'] & Hp' & He)%list_elem_of_bind. simpl in Hp'.
      destruct (keep_directory name); [|by apply elem_of_nil in Hp].
      destruct (keep_directory name'); [|by apply elem_of_nil in Hp'].
      apply walk_python_files_elem in Hp as (parts & -> & _).
      apply walk_python_files_elem in Hp' as (parts' & Hp' & _).
      rewrite <- !app_assoc in Hp'. apply app_inv_head in Hp'. simpl in Hp'.
      injection Hp' as -> _. apply Hname.
      apply list_elem_of_fmap. by exists (name', sub').
Qed.

(** X3. When every directory listing names each entry once, no file is
    discovered twice, so no file is parsed twice. *)
Theorem find_python_files_no_duplicates (repo_path : Path) (tree : fs_dir) :
  listing_ok tree → NoDup (find_python_files repo_path tree).
Proof. intros Hok. by apply walk_python_files_NoDup. Qed.

Ltac check_listing :=
  constructor;
  [by apply (bool_decide_unpack _)
  |by apply (bool_decide_unpack _)
  |repeat (apply List.Forall_cons; [simpl; check_listing|]);
   apply List.Forall_nil].

Lemma sample_fs_listing_ok : listing_ok sample_fs.
Proof. unfold sample_fs. check_listing. Qed.

Lemma find_python_files_no_duplicates_witness :
  NoDup (find_python_files sample_repo sample_fs).
Proof.
  apply (find_python_files_no_duplicates sample_repo sample_fs).
  exact sample_fs_listing_ok.
Defined.

(** ** Relative paths *)

Lemma split_without_separator (c : ascii) (s : string) :
  contains c s = false → split c s = [s].
Proof.
  induction s as [|a s IH]; simpl; [done|].
  intros [Ha Hs]%orb_false_elim. rewrite Ha. by rewrite IH.
Qed.

Lemma split_at_separator (c : ascii) (a rest : string) :
  contains c a = false →
  split c (a +:+ String c rest) = a :: split c rest.
Proof.
  induction a as [|x a IH]; intros Ha.
  - change (split c (String c rest) = EmptyString :: split c rest).
    simpl. by rewrite Ascii.eqb_refl.
  - simpl in Ha. apply orb_false_elim in Ha as [Hx Ha].
    rewrite string_app_cons. cbn [split]. rewrite Hx. by rewrite IH.
Qed.

Lemma split_join_with (c : ascii) (parts : list string) :
  parts ≠ [] →
  Forall (λ part, contains c part = false) parts →
  split c (join_with (String c EmptyString) parts) = parts.
Proof.
  intros Hne Hparts. induction Hparts as [|a l Ha Hl IH]; [done|].
  destruct l as [|b l]; [by apply split_without_separator|].
  change (join_with (String c EmptyString) (a :: b :: l))
    with (a +:+ String c (join_with (String c EmptyString) (b :: l))).
  rewrite split_at_separator by done. by rewrite IH.
Qed.

(** X4. For a file below the root whose components hold no separator, the
    relative path splits back into the components; hence two such files
    with the same relative path are the same file, which is what makes the
    relative path a key for File entities and a prefix of unambiguous
    origin for function ids. *)
Theorem relative_path_round_trip (repo_path : Path) (parts : list string) :
  parts ≠ [] →
  Forall (λ part, contains sep part = false) parts →
  split sep (get_relative_path repo_path (repo_path ++ parts)) = parts
  ∧ ∀ parts', parts' ≠ [] →
      Forall (λ part, contains sep part = false) parts' →
      get_relative_path repo_path (repo_path ++ parts')
        = get_relative_path repo_path (repo_path ++ parts) →
      repo_path ++ parts' = repo_path ++ parts.
Proof.
  intros Hne Hparts.
  assert (Hsplit : ∀ l, l ≠ [] → Forall (λ part, contains sep part = false) l →
            split sep (get_relative_path repo_path (repo_path ++ l)) = l).
  { intros l Hl Hf. rewrite get_relative_path_below. unfold str_relative.
    destruct l as [|a l]; [done|]. by apply (split_join_with sep (a :: l)). }
  split; [by apply Hsplit|].
  intros parts' Hne' Hparts' Heq. f_equal.
  rewrite <- (Hsplit parts') by done. rewrite Heq. by apply Hsplit.
Qed.

Lemma relative_path_round_trip_witness :
  split sep (get_relative_path sample_repo (sample_repo ++ ["pkg"; "util.py"]))
    = ["pkg"; "util.py"].
Proof.
  apply (relative_path_round_trip sample_repo ["pkg"; "util.py"]).
  - discriminate.
  - repeat constructor.
Defined.

(** ** The aggregate of a run *)

(** The file entity, the classes and the import edges of one discovered
    file, none when it fails. *)
Definition file_node_of (repo_path : Path) (read_text : Path → option string)
    (ast_parse : string → option node) (file_path : Path) : list FileNode :=
  match parsed_tree read_text ast_parse file_path with
  | Some _ =>
      [mkFileNode (str_path file_path) (get_relative_path repo_path file_path)]
  | None => []
  end.

Definition file_classes (repo_path : Path) (read_text : Path → option string)
    (ast_parse : string → option node) (file_path : Path) : list ClassNode :=
  match parsed_tree read_text ast_parse file_path with
  | Some tree =>
      omap (class_node_of (get_relative_path repo_path file_path))
        (ast_walk tree)
  | None => []
  end.

Definition file_imports (repo_path : Path) (read_text : Path → option string)
    (ast_parse : string → option node) (file_path : Path)
  : list ImportRelation :=
  match parsed_tree read_text ast_parse file_path with
  | Some tree =>
      default [] (parse_imports tree (get_relative_path repo_path file_path))
  | None => []
  end.

(** The number of edges the loop of [parse_imports] appends at a node. *)
Definition import_alias_count (n : node) : nat :=
  match n with
  | Import names => length names
  | ImportFrom module names _ => if opt_truthy module then length names else 0
  | _ => 0
  end.

Lemma parse_files_sequences (repo_path : Path)
    (read_text : Path → option string) (ast_parse : string → option node)
    (visitor_overflows : node → bool)
    (l : list Path) (data : RepositoryData) (c : nat) :
  let result := (parse_files repo_path read_text ast_parse visitor_overflows l data c).1 in
  files result = files data ++ (l ≫= file_node_of repo_path read_text ast_parse)
  ∧ classes result =
    classes data ++ (l ≫= file_classes repo_path read_text ast_parse)
  ∧ imports result =
    imports data ++ (l ≫= file_imports repo_path read_text ast_parse).
Proof.
  revert data c. induction l as [|p l IH]; intros data c.
  - simpl. by rewrite !app_nil_r.
  - cbv zeta. rewrite !bind_cons.
    unfold file_node_of at 1, file_classes at 1, file_imports at 1.
    destruct (fails_to_parse read_text ast_parse p) eqn:Hp.
    + rewrite parse_files_failed by done.
      apply fails_to_parse_spec in Hp. rewrite Hp. apply IH.
    + destruct (parse_files_parsed repo_path _ _ visitor_overflows p l data c Hp)
        as (t & fi & Ht & Hi & ->).
      rewrite Ht, Hi.
      match goal with
      | |- context [parse_files _ _ _ _ l ?d ?k] =>
          destruct (IH d k) as (-> & -> & ->)
      end.
      cbn [add_parsed_file files classes imports default].
      by rewrite <- !app_assoc.
Qed.

(** X5. The aggregate of a run is, sequence by sequence, what the files
    that parse contribute, concatenated in discovery order: what a file
    contributes to the five sequences does not depend on the other files.
    A file that parses contributes its file node, its functions, classes
    and import edges, and the call edges of its tree unless the call
    visitor raises on it, in which case it contributes no call edge. Only
    the name table is shared. *)
Theorem aggregate_is_concatenation (repo_path : Path)
    (read_text : Path → option string) (ast_parse : string → option node)
    (visitor_overflows : node → bool)
    (find_python_files : list Path) :
  let data :=
    (parse_repository repo_path read_text ast_parse visitor_overflows find_python_files).1 in
  files data = find_python_files ≫= file_node_of repo_path read_text ast_parse
  ∧ functions data =
    find_python_files ≫= file_functions repo_path read_text ast_parse
  ∧ classes data =
    find_python_files ≫= file_classes repo_path read_text ast_parse
  ∧ imports data =
    find_python_files ≫= file_imports repo_path read_text ast_parse
  ∧ calls data =
    find_python_files
      ≫= file_calls repo_path read_text ast_parse visitor_overflows
  ∧ (∀ p, file_calls repo_path read_text ast_parse visitor_overflows p =
          match parsed_tree read_text ast_parse p with
          | Some tree =>
              if visitor_overflows tree then []
              else parse_function_calls (get_relative_path repo_path p) tree
          | None => []
          end)
  ∧ function_map data = record_functions ∅ (functions data).
Proof.
  intros data. unfold data, parse_repository.
  destruct (parse_files_sequences repo_path read_text ast_parse visitor_overflows
              find_python_files empty_data 0) as (-> & -> & ->).
  destruct (parse_files_functions repo_path read_text ast_parse visitor_overflows
              find_python_files empty_data 0) as (-> & ->).
  by rewrite parse_files_calls.
Qed.

Lemma class_node_of_spec (file_path : string) (d : node) (c : ClassNode) :
  class_node_of file_path d = Some c ↔
  ∃ bases keywords body decorator_list type_params,
    d = ClassDef (cls_name c) bases keywords body decorator_list type_params
          (cls_line_number c)
    ∧ cls_id c = file_path +:+ "::" +:+ cls_name c
    ∧ cls_file_path c = file_path.
Proof.
  split.
  - destruct d; simpl; try done. intros [= <-]. by repeat eexists.
  - intros (? & ? & ? & ? & ? & -> & Hid & Hpath). destruct c. simpl in *.
    unfold function_id. by subst.
Qed.

(** X6. Extraction reaches every nesting depth and nothing else: the
    functions of the aggregate are exactly the entities of the function and
    coroutine-function declarations found anywhere in the tree of a file
    that parses, each with the id [relative_path::name], its name, its file
    and its line; likewise the classes for the class declarations. *)
Theorem extraction_is_complete (repo_path : Path)
    (read_text : Path → option string) (ast_parse : string → option node)
    (visitor_overflows : node → bool)
    (find_python_files : list Path) :
  let data :=
    (parse_repository repo_path read_text ast_parse visitor_overflows find_python_files).1 in
  let rel := get_relative_path repo_path in
  (∀ f, f ∈ functions data ↔
     ∃ p tree d, p ∈ find_python_files
       ∧ parsed_tree read_text ast_parse p = Some tree
       ∧ descendant tree d
       ∧ is_function_def d = Some (fn_name f)
       ∧ function_node_of (rel p) d = Some f
       ∧ fn_id f = rel p +:+ "::" +:+ fn_name f
       ∧ fn_file_path f = rel p)
  ∧ (∀ c, c ∈ classes data ↔
       ∃ p tree bases keywords body decorator_list type_params,
         p ∈ find_python_files
         ∧ parsed_tree read_text ast_parse p = Some tree
         ∧ descendant tree
             (ClassDef (cls_name c) bases keywords body decorator_list
                type_params (cls_line_number c))
         ∧ cls_id c = rel p +:+ "::" +:+ cls_name c
         ∧ cls_file_path c = rel p).
Proof.
  intros data rel. unfold data, parse_repository.
  destruct (parse_files_sequences repo_path read_text ast_parse visitor_overflows
              find_python_files empty_data 0) as (_ & -> & _).
  destruct (parse_files_functions repo_path read_text ast_parse visitor_overflows
              find_python_files empty_data 0) as (-> & _).
  cbn [empty_data functions classes app]. split.
  - intros f. rewrite list_elem_of_bind. split.
    + intros (p & (t & d & Ht & Hd & Hf)%file_functions_elem & Hp).
      exists p, t, d. destruct (function_node_of_spec _ _ _ Hf) as (? & ? & ?).
      done.
    + intros (p & t & d & Hp & Ht & Hd & _ & Hf & _). exists p.
      split; [|done]. apply file_functions_elem. by exists t, d.
  - intros c. rewrite list_elem_of_bind. unfold file_classes. split.
    + intros (p & Hc & Hp).
      destruct (parsed_tree read_text ast_parse p) as [t|] eqn:Ht;
        [|by apply elem_of_nil in Hc].
      apply list_elem_of_omap in Hc as (d & Hd%ast_walk_elem & Hc).
      apply class_node_of_spec in Hc as (b & k & bd & dl & tp & -> & ? & ?).
      by exists p, t, b, k, bd, dl, tp.
    + intros (p & t & b & k & bd & dl & tp & Hp & Ht & Hd & Hid & Hpath).
      exists p. split; [|done]. rewrite Ht. apply list_elem_of_omap.
      eexists. split; [by apply ast_walk_elem|].
      apply class_node_of_spec. by exists b, k, bd, dl, tp.
Qed.

(** ** Import extraction and one file, on any tree *)

Lemma potential_path_extension (m p : string) :
  potential_path m = Some p → ∃ stem, p = stem +:+ ".py".
Proof.
  unfold potential_path. destruct (os_path_join _) as [q|]; simpl; [|done].
  intros [= <-]. by exists q.
Qed.

Lemma import_edges_shape (file_path : string) (n : node)
    (es : list ImportRelation) :
  import_edges file_path n = Some es →
  length es = import_alias_count n
  ∧ ∀ e, e ∈ es → ∃ stem, to_file e = stem +:+ ".py".
Proof.
  destruct n as [ns|m ns lv| | | | | | | |]; simpl;
    try (intros [= <-]; split; [done|]; by intros e ?%elem_of_nil).
  - intros H%mapM_Some_1. split; [symmetry; by eapply Forall2_length|].
    intros e He. induction H as [|a e' ns es Ha _ IH];
      [by apply elem_of_nil in He|].
    apply elem_of_cons in He as [->|He]; [|by apply IH].
    simpl in Ha. destruct (potential_path (alias_name a)) as [p|] eqn:Hp;
      [|done].
    simpl in Ha. injection Ha as <-. by eapply potential_path_extension.
  - destruct (opt_truthy m);
      [|intros [= <-]; split; [done|]; by intros e ?%elem_of_nil].
    destruct (potential_path (default EmptyString m)) as [p|] eqn:Hp;
      simpl; [|done].
    intros [= <-]. split; [by rewrite length_fmap|].
    intros e (a & -> & _)%list_elem_of_fmap. by eapply potential_path_extension.
Qed.

Lemma parse_imports_loop_shape (file_path : string) (nodes : list node) :
  ∀ acc r, parse_imports_loop file_path nodes acc = Some r →
    ∃ es, r = acc ++ es
      ∧ length es = sum_list_with import_alias_count nodes
      ∧ ∀ e, e ∈ es → ∃ stem, to_file e = stem +:+ ".py".
Proof.
  induction nodes as [|n nodes IH]; intros acc r; simpl.
  - intros [= <-]. exists []. rewrite app_nil_r. split; [done|].
    split; [done|]. by intros e ?%elem_of_nil.
  - destruct (import_edges file_path n) as [es|] eqn:He; simpl; [|done].
    intros (es' & -> & Hlen & Hext)%IH.
    destruct (import_edges_shape _ _ _ He) as [Hl Hx].
    exists (es ++ es'). rewrite app_assoc. split; [done|].
    split; [rewrite length_app; lia|].
    intros e [?|?]%elem_of_app; auto.
Qed.

(** X7. Import extraction never raises, whatever the tree: the join always
    gets at least one part. It appends one edge per alias of every plain
    import and of every from-import with a module, found anywhere in the
    tree; each edge starts at the file and points to a path with the
    extension. *)
Theorem parse_imports_never_raises (tree : node) (file_path : string) :
  ∃ es, parse_imports tree file_path = Some es
    ∧ length es = sum_list_with import_alias_count (ast_walk tree)
    ∧ ∀ e, e ∈ es →
        from_file e = file_path ∧ ∃ stem, to_file e = stem +:+ ".py".
Proof.
  destruct (parse_imports_total tree file_path) as [es Hes]. exists es.
  split; [done|].
  destruct (parse_imports_loop_shape _ _ _ _ Hes) as (es' & Heq & Hlen & Hext).
  simpl in Heq. subst es'. split; [done|]. intros e He. split; [|by apply Hext].
  by eapply parse_imports_from_file.
Qed.

Lemma record_functions_other (m : gmap string string) (fns : list FunctionNode)
    (name : string) :
  (∀ f, f ∈ fns → fn_name f ≠ name) →
  record_functions m fns !! name = m !! name.
Proof.
  intros Hno. rewrite record_functions_lookup.
  destruct (last _) as [f|] eqn:Hl; [|done].
  apply last_Some_elem_of, list_elem_of_filter in Hl as [Hname Hf].
  by destruct (Hno f Hf).
Qed.

(** X8. [parse_file] returns [True] exactly when the file can be read and
    parsed and the call visitor does not raise on its tree. Whatever it
    returns, it only appends: each sequence of the aggregate it was given
    is a prefix of the sequence it leaves, and the table keeps its entry
    for every name that no declaration of this file bears. When it returns
    [False] the call edges are as they were. *)
Theorem parse_file_only_appends (repo_path : Path)
    (read_text : Path → option string) (ast_parse : string → option node)
    (visitor_overflows : node → bool)
    (data : RepositoryData) (file_path : Path) :
  let result :=
    parse_file repo_path read_text ast_parse visitor_overflows data file_path in
  (result.1 = true ↔
   ∃ tree, parsed_tree read_text ast_parse file_path = Some tree
           ∧ visitor_overflows tree = false)
  ∧ files data `prefix_of` files result.2
  ∧ functions data `prefix_of` functions result.2
  ∧ classes data `prefix_of` classes result.2
  ∧ imports data `prefix_of` imports result.2
  ∧ calls data `prefix_of` calls result.2
  ∧ (result.1 = false → calls result.2 = calls data)
  ∧ ∀ name,
      (∀ f, f ∈ file_functions repo_path read_text ast_parse file_path →
            fn_name f ≠ name) →
      function_map result.2 !! name = function_map data !! name.
Proof.
  intros result. unfold result, file_functions.
  destruct (parsed_tree read_text ast_parse file_path) as [t|] eqn:Ht.
  - destruct (parse_file_parsed repo_path _ _ visitor_overflows data file_path
                t Ht) as (fi & _ & ->).
    cbn [fst snd add_parsed_file files functions classes imports calls
         function_map].
    split.
    { rewrite negb_true_iff. split; [intros H; by exists t|].
      by intros (t' & [= <-] & H). }
    repeat (split; [by apply prefix_app_r|]).
    split.
    { rewrite negb_false_iff. unfold extracted_calls. intros ->.
      apply app_nil_r. }
    intros name Hname. by apply record_functions_other.
  - rewrite (parse_file_failed repo_path _ _ visitor_overflows data file_path Ht).
    cbn [fst snd].
    split; [split; [done|by intros (? & ? & ?)]|]. by repeat split.
Qed.

(** ** The call visitor, further *)

(** X9. A visit only appends: the edges collected before it stay in place,
    the slot is as before, and what is appended depends on the incoming
    state through the slot alone. For a node that is neither a declaration
    nor a call, such as a module, a class or a statement, the appended
    edges are those of its children in order, each child visited with the
    same slot. *)
Theorem visit_appends_edges (file_path : string) (n : node) (v : CallVisitor) :
  current_function (visit file_path n v) = current_function v
  ∧ visitor_calls (visit file_path n v) =
    visitor_calls v
    ++ visitor_calls (visit file_path n (mkCallVisitor (current_function v) []))
  ∧ (is_function_def n = None → own_edges (current_function v) n = [] →
     visitor_calls (visit file_path n v) =
     visitor_calls v
     ++ (iter_child_nodes n ≫= λ c,
           visitor_calls
             (visit file_path c (mkCallVisitor (current_function v) [])))).
Proof.
  rewrite visit_frame. cbn [current_function visitor_calls]. split; [done|].
  split; [done|]. intros Hn Hown. f_equal. rewrite emitted_eq, Hown.
  by rewrite inner_function_other.
Qed.

Lemma visit_appends_edges_witness :
  visitor_calls
    (visit "m.py" sample_nested
       (mkCallVisitor None [mkCallRelation "m.py::earlier" "y"])) =
  [mkCallRelation "m.py::earlier" "y"]
  ++ (iter_child_nodes sample_nested ≫= λ c,
        visitor_calls (visit "m.py" c (mkCallVisitor None []))).
Proof.
  apply (proj2 (proj2 (visit_appends_edges "m.py" sample_nested
                         (mkCallVisitor None [mkCallRelation "m.py::earlier" "y"])))).
  - reflexivity.
  - reflexivity.
Defined.

Lemma emitted_to_function_truthy (file_path : string) (n : node) :
  ∀ cur c, c ∈ emitted file_path cur n → str_truthy (to_function c) = true.
Proof.
  induction n as [n IH] using node_children_ind. intros cur c.
  rewrite emitted_eq, elem_of_app, list_elem_of_bind.
  rewrite Forall_forall in IH. intros [Hown|(ch & Hc & Hch)]; [|by eapply IH].
  destruct n; simpl in Hown; try by apply elem_of_nil in Hown.
  unfold record_call in Hown. simpl in Hown.
  destruct cur as [f|]; [|by apply elem_of_nil in Hown].
  destruct (str_truthy f); [|by apply elem_of_nil in Hown].
  destruct (call_name n) as [name|] eqn:Hname; simpl in Hown;
    [|by apply elem_of_nil in Hown].
  destruct (str_truthy name) eqn:Ht; simpl in Hown;
    [|by apply elem_of_nil in Hown].
  by apply list_elem_of_singleton in Hown as ->.
Qed.

(** X10. No call edge has an empty end: the candidate of every edge is a
    non-empty name and its source is the non-empty id of a declaration of
    the same tree. A call whose target gives an empty candidate is
    dropped. *)
Theorem call_edges_have_names (file_path : string) (tree : node)
    (c : CallRelation) :
  c ∈ parse_function_calls file_path tree →
  str_truthy (to_function c) = true
  ∧ str_truthy (from_function c) = true
  ∧ ∃ d name, descendant tree d ∧ is_function_def d = Some name
              ∧ from_function c = file_path +:+ "::" +:+ name.
Proof.
  intros Hc. split; [by eapply emitted_to_function_truthy|].
  destruct (emitted_from_function file_path tree None c Hc)
    as [?|(d & name & Hd & Hdef & Hfrom)]; [done|].
  split; [rewrite Hfrom; apply function_id_truthy|]. by exists d, name.
Qed.

Lemma call_edges_have_names_witness :
  str_truthy (to_function (mkCallRelation "m.py::h" "x")) = true
  ∧ str_truthy (from_function (mkCallRelation "m.py::h" "x")) = true
  ∧ ∃ d name, descendant sample_nested d ∧ is_function_def d = Some name
              ∧ from_function (mkCallRelation "m.py::h" "x")
                = "m.py" +:+ "::" +:+ name.
Proof.
  apply (call_edges_have_names "m.py" sample_nested).
  vm_compute. repeat constructor.
Defined.

(** ** Ingestion of call edges, further *)

(** Does the step for the edge reach the MERGE: the lookup gives a truthy id
    and both Function nodes are in the store. *)
Definition call_resolves (fmap : gmap string string) (store : GraphStore)
    (c : CallRelation) : bool :=
  match fmap !! to_function c with
  | Some id =>
      str_truthy id
      && bool_decide (from_function c ∈ function_nodes store
                      ∧ id ∈ function_nodes store)
  | None => false
  end.

Lemma graph_store_eq (s1 s2 : GraphStore) :
  function_nodes s1 = function_nodes s2 → calls_edges s1 = calls_edges s2 →
  s1 = s2.
Proof. destruct s1, s2. simpl. by intros -> ->. Qed.

Lemma ingest_call_count (fmap : gmap string string) (store : GraphStore)
    (n : nat) (c : CallRelation) :
  (ingest_call fmap (store, n) c).2 =
  n + (if call_resolves fmap store c then 1 else 0).
Proof.
  unfold ingest_call, call_resolves, run_calls_query.
  destruct (fmap !! to_function c) as [id|]; simpl; [|lia].
  destruct (str_truthy id); simpl; [|lia].
  case_decide as H;
    [rewrite (bool_decide_eq_true_2 _ H)|rewrite (bool_decide_eq_false_2 _ H)];
    simpl; lia.
Qed.

Lemma call_resolves_nodes (fmap : gmap string string) (s1 s2 : GraphStore)
    (c : CallRelation) :
  function_nodes s1 = function_nodes s2 →
  call_resolves fmap s1 c = call_resolves fmap s2 c.
Proof. unfold call_resolves. by intros ->. Qed.

Lemma ingest_fold_count (fmap : gmap string string) (cs : list CallRelation)
    (store : GraphStore) (n : nat) :
  (foldl (ingest_call fmap) (store, n) cs).2 =
  n + length (List.filter (call_resolves fmap store) cs).
Proof.
  revert store n. induction cs as [|c cs IH]; intros store n; [simpl; lia|].
  cbn [foldl List.filter].
  destruct (ingest_call fmap (store, n) c) as [store' n'] eqn:Hc.
  pose proof (ingest_call_count fmap store n c) as Hn. rewrite Hc in Hn.
  destruct (ingest_call_spec fmap store n c) as [Hnodes _].
  rewrite Hc in Hnodes. simpl in Hn, Hnodes. rewrite IH, Hn.
  rewrite (List.filter_ext _ _ (λ c, call_resolves_nodes fmap store' store c Hnodes)).
  destruct (call_resolves fmap store c); simpl; lia.
Qed.

Lemma call_resolves_spec (fmap : gmap string string) (store : GraphStore)
    (c : CallRelation) :
  call_resolves fmap store c = true ↔ ∃ e, resolves fmap store c e.
Proof.
  unfold call_resolves, resolves. split.
  - destruct (fmap !! to_function c) as [id|]; [|done].
    intros [Ht [Hf Hi]%bool_decide_eq_true]%andb_prop.
    exists (from_function c, id), id. done.
  - intros (e & id & -> & Ht & Hf & Hi & _). rewrite Ht. simpl.
    by apply bool_decide_eq_true.
Qed.

(** X11. Ingesting call edges never touches the Function nodes, never
    removes a relationship, and is idempotent: a second run over the same
    edges leaves the store of the first run as it is. *)
Theorem ingest_calls_idempotent (cs : list CallRelation)
    (fmap : gmap string string) (store : GraphStore) :
  let once := (ingest_calls cs fmap store).1 in
  function_nodes once = function_nodes store
  ∧ calls_edges store ⊆ calls_edges once
  ∧ (ingest_calls cs fmap once).1 = once.
Proof.
  intros once. destruct (ingest_calls_spec cs fmap store) as [Hn He].
  fold once in Hn, He.
  destruct (ingest_calls_spec cs fmap once) as [Hn2 He2].
  split; [done|]. split.
  - intros e Hin. apply He. by left.
  - apply graph_store_eq; [done|]. apply set_eq. intros e. rewrite He2. split.
    + intros [?|(c & Hc & id & Hid & Ht & Hf & Hi & ->)]; [done|].
      apply He. right. exists c. split; [done|]. exists id.
      rewrite Hn in Hf, Hi. done.
    + by left.
Qed.

(** X12. The count that [ingest_calls] reports is the number of call edges,
    repetitions included, whose lookup gives an id and whose two Function
    nodes exist; it counts matched rows, not relationships created, so it
    never exceeds the number of edges but may exceed the number of
    relationships in the store. *)
Theorem ingest_calls_count (cs : list CallRelation)
    (fmap : gmap string string) (store : GraphStore) :
  (ingest_calls cs fmap store).2
    = length (List.filter (call_resolves fmap store) cs)
  ∧ ((ingest_calls cs fmap store).2 ≤ length cs)%nat.
Proof.
  assert (H : (ingest_calls cs fmap store).2
              = length (List.filter (call_resolves fmap store) cs)).
  { destruct cs as [|c cs]; [done|]. unfold ingest_calls.
    by rewrite ingest_fold_count. }
  split; [done|]. rewrite H. apply List.filter_length_le.
Qed.

Example ingest_calls_counts_repetitions :
  let store := mkGraphStore {[ "m.py::f"; "m.py::g" ]} ∅ in
  let result :=
    ingest_calls [mkCallRelation "m.py::f" "g"; mkCallRelation "m.py::f" "g"]
      {[ "g" := "m.py::g" ]} store in
  result.2 = 2 ∧ size (calls_edges result.1) = 1.
Proof. by vm_compute. Qed.

Lemma filter_length_Permutation {A} (f : A → bool) (l1 l2 : list A) :
  l1 ≡ₚ l2 → length (List.filter f l1) = length (List.filter f l2).
Proof.
  induction 1 as [|x l l' _ IH|x y l|l l' l'' _ IH1 _ IH2]; simpl.
  - done.
  - destruct (f x); simpl; by rewrite IH.
  - by destruct (f x), (f y).
  - by rewrite IH1.
Qed.

(** X13. The order of the call edges does not matter at ingestion: any
    reordering of the edges leaves the same store and reports the same
    count. *)
Theorem ingest_calls_order_independent (cs cs' : list CallRelation)
    (fmap : gmap string string) (store : GraphStore) :
  cs ≡ₚ cs' → ingest_calls cs' fmap store = ingest_calls cs fmap store.
Proof.
  intros Hp.
  destruct (ingest_calls_spec cs fmap store) as [Hn He].
  destruct (ingest_calls_spec cs' fmap store) as [Hn' He'].
  destruct (ingest_calls_count cs fmap store) as [Hc _].
  destruct (ingest_calls_count cs' fmap store) as [Hc' _].
  destruct (ingest_calls cs fmap store) as [s n] eqn:E.
  destruct (ingest_calls cs' fmap store) as [s' n'] eqn:E'.
  simpl in *. f_equal.
  - apply graph_store_eq; [congruence|]. apply set_eq. intros e.
    rewrite He, He'. by setoid_rewrite <- Hp.
  - rewrite Hc, Hc'. symmetry. by apply filter_length_Permutation.
Qed.

Lemma ingest_calls_order_independent_witness :
  ingest_calls [mkCallRelation "b.py::bar" "foo"; mkCallRelation "a.py::foo" "bar"]
    {[ "foo" := "a.py::foo"; "bar" := "b.py::bar" ]}
    (mkGraphStore {[ "a.py::foo"; "b.py::bar" ]} ∅) =
  ingest_calls [mkCallRelation "a.py::foo" "bar"; mkCallRelation "b.py::bar" "foo"]
    {[ "foo" := "a.py::foo"; "bar" := "b.py::bar" ]}
    (mkGraphStore {[ "a.py::foo"; "b.py::bar" ]} ∅).
Proof.
  apply (ingest_calls_order_independent
           [mkCallRelation "a.py::foo" "bar"; mkCallRelation "b.py::bar" "foo"]
           [mkCallRelation "b.py::bar" "foo"; mkCallRelation "a.py::foo" "bar"]).
  apply perm_swap.
Defined.

(** X14. Ingestion keeps the store closed: when every relationship of the
    store joins two Function nodes of the store, so does every relationship
    after ingesting call edges; the query never creates a node and never a
    relationship with a missing end. *)
Theorem ingest_calls_no_dangling (cs : list CallRelation)
    (fmap : gmap string string) (store : GraphStore) :
  (∀ a b, (a, b) ∈ calls_edges store →
     a ∈ function_nodes store ∧ b ∈ function_nodes store) →
  let after := (ingest_calls cs fmap store).1 in
  ∀ a b, (a, b) ∈ calls_edges after →
    a ∈ function_nodes after ∧ b ∈ function_nodes after.
Proof.
  intros Hclosed after a b Hin.
  destruct (ingest_calls_spec cs fmap store) as [Hn He]. fold after in Hn, He.
  rewrite Hn. apply He in Hin as [?|(c & _ & id & _ & _ & Hf & Hi & [= -> ->])];
    [by apply Hclosed|done].
Qed.

Lemma ingest_calls_no_dangling_witness :
  let after :=
    (ingest_calls [mkCallRelation "b.py::bar" "foo"; mkCallRelation "b.py::bar" "baz"]
       {[ "foo" := "a.py::foo"; "baz" := "c.py::baz" ]}
       (mkGraphStore {[ "a.py::foo"; "b.py::bar" ]} ∅)).1 in
  "b.py::bar" ∈ function_nodes after ∧ "a.py::foo" ∈ function_nodes after.
Proof.
  apply (ingest_calls_no_dangling
           [mkCallRelation "b.py::bar" "foo"; mkCallRelation "b.py::bar" "baz"]
           {[ "foo" := "a.py::foo"; "baz" := "c.py::baz" ]}
           (mkGraphStore {[ "a.py::foo"; "b.py::bar" ]} ∅)).
  - intros a b Hin. simpl in Hin. set_solver.
  - apply ingest_calls_spec. right.
    exists (mkCallRelation "b.py::bar" "foo"). split; [left|].
    exists "a.py::foo". simpl.
    split; [reflexivity|]. split; [reflexivity|].
    split; [set_solver|]. split; [set_solver|reflexivity].
Defined.

(** ** A run followed by the ingestion of its call edges *)

Lemma run_call_sources (repo_path : Path) (read_text : Path → option string)
    (ast_parse : string → option node)
    (visitor_overflows : node → bool) (l : list Path) (c : CallRelation) :
  let data := (parse_repository repo_path read_text ast_parse visitor_overflows l).1 in
  c ∈ calls data → ∃ f, f ∈ functions data ∧ fn_id f = from_function c.
Proof.
  intros data. unfold data, parse_repository.
  rewrite parse_files_calls.
  destruct (parse_files_functions repo_path read_text ast_parse visitor_overflows l empty_data 0)
    as [-> _].
  cbn [empty_data calls functions app].
  intros (p & Hc & Hp)%list_elem_of_bind. unfold file_calls in Hc.
  destruct (parsed_tree read_text ast_parse p) as [t|] eqn:Ht;
    [|by apply elem_of_nil in Hc].
  apply extracted_calls_elem in Hc.
  apply parse_function_calls_from in Hc as (f & Hf & Hid).
  exists f. split; [|done]. apply list_elem_of_bind. exists p. split; [|done].
  unfold file_functions. by rewrite Ht.
Qed.

Lemma run_table_ids (repo_path : Path) (read_text : Path → option string)
    (ast_parse : string → option node)
    (visitor_overflows : node → bool) (l : list Path) (name id : string) :
  let data := (parse_repository repo_path read_text ast_parse visitor_overflows l).1 in
  function_map data !! name = Some id →
  ∃ f, f ∈ functions data ∧ fn_name f = name ∧ fn_id f = id.
Proof.
  intros data. unfold data, parse_repository.
  destruct (parse_files_functions repo_path read_text ast_parse visitor_overflows l empty_data 0)
    as [-> ->].
  cbn [empty_data function_map functions app].
  rewrite record_functions_lookup, lookup_empty.
  destruct (last _) as [f|] eqn:Hl; [|done]. intros [= <-].
  apply last_Some_elem_of, list_elem_of_filter in Hl as [Hname Hf].
  by exists f.
Qed.

(** X15. After a run, on a store that holds a Function node for every
    function of the aggregate, ingesting the call edges adds exactly the
    relationships from the source of a call edge to the id the table gives
    for its candidate: every call edge whose candidate is the name of a
    declared function becomes a relationship, to the declaration of that
    name discovered last, and no other relationship appears. *)
Theorem resolved_calls_of_a_run (repo_path : Path)
    (read_text : Path → option string) (ast_parse : string → option node)
    (visitor_overflows : node → bool)
    (find_python_files : list Path) (store : GraphStore) :
  let data :=
    (parse_repository repo_path read_text ast_parse visitor_overflows find_python_files).1 in
  (∀ f, f ∈ functions data → fn_id f ∈ function_nodes store) →
  ∀ a b,
    (a, b) ∈ calls_edges
               (ingest_calls (calls data) (function_map data) store).1 ↔
    (a, b) ∈ calls_edges store
    ∨ ∃ name, mkCallRelation a name ∈ calls data
              ∧ function_map data !! name = Some b.
Proof.
  intros data Hnodes a b.
  destruct (ingest_calls_spec (calls data) (function_map data) store) as [_ He].
  rewrite He. split.
  - intros [?|(c & Hc & id & Hid & _ & _ & _ & [= -> ->])]; [by left|].
    right. exists (to_function c). by destruct c.
  - intros [?|(name & Hc & Hid)]; [by left|]. right.
    exists (mkCallRelation a name). split; [done|]. exists b. simpl.
    split; [done|]. split; [by eapply function_map_ids_truthy|].
    split; [|split; [|done]].
    + destruct (run_call_sources repo_path read_text ast_parse visitor_overflows
                  find_python_files _ Hc) as (f & Hf & Hfrom).
      simpl in Hfrom. rewrite <- Hfrom. by apply Hnodes.
    + destruct (run_table_ids repo_path read_text ast_parse visitor_overflows
                  find_python_files _ _ Hid) as (f & Hf & _ & <-).
      by apply Hnodes.
Qed.

Lemma resolved_calls_of_a_run_witness :
  let data :=
    (parse_repository sample_repo sample_read_text sample_ast_parse sample_visitor_overflows
       [sample_repo ++ ["a.py"]; sample_repo ++ ["b.py"]]).1 in
  let store := mkGraphStore {[ "a.py::foo"; "b.py::bar" ]} ∅ in
  ("b.py::bar", "a.py::foo")
    ∈ calls_edges (ingest_calls (calls data) (function_map data) store).1 ↔
  ("b.py::bar", "a.py::foo") ∈ calls_edges store
  ∨ ∃ name, mkCallRelation "b.py::bar" name ∈ calls data
            ∧ function_map data !! name = Some "a.py::foo".
Proof.
  apply (resolved_calls_of_a_run sample_repo sample_read_text sample_ast_parse sample_visitor_overflows
           [sample_repo ++ ["a.py"]; sample_repo ++ ["b.py"]]
           (mkGraphStore {[ "a.py::foo"; "b.py::bar" ]} ∅)).
  intros f Hf. vm_compute in Hf.
  repeat (apply elem_of_cons in Hf as [->|Hf]; [simpl; set_solver|]).
  by apply elem_of_nil in Hf.
Defined.

(** ** ingester.py: ingest_files and ingest_imports

    The graph store as far as the two queries read and write it. Both
    properties of a File node get the relative path, and the store is
    written by this code only, so a File node is its path; an IMPORTS
    relationship is its two ends and its name. *)
Record FileStore := mkFileStore {
  file_nodes : gset string;
  imports_edges : gset (string * string * string) }.

(** [MERGE (f:File {path: $path, relative_path: $relative_path})], both
    parameters being [file_node.relative_path]. *)
Definition ingest_files (files : list FileNode) (store : FileStore)
  : FileStore :=
  match files with
  | [] => store
  | _ =>
      foldl (λ s file_node,
               mkFileStore ({[ relative_path file_node ]} ∪ file_nodes s)
                 (imports_edges s))
        store files
  end.

(** The query of [ingest_imports]: the source File node must match; the
    target is matched optionally and rows without it are filtered out; MERGE
    adds the relationship unless it is there; the count is the number of
    rows left. *)
Definition run_imports_query (store : FileStore) (from_f to_f name : string)
  : FileStore * nat :=
  if decide (from_f ∈ file_nodes store ∧ to_f ∈ file_nodes store)
  then (mkFileStore (file_nodes store)
          ({[ (from_f, to_f, name) ]} ∪ imports_edges store), 1)
  else (store, 0).

Definition ingest_import (acc : FileStore * nat) (imp : ImportRelation)
  : FileStore * nat :=
  let '(store, import_count) := acc in
  let '(store', created) :=
    run_imports_query store (from_file imp) (to_file imp) (import_name imp) in
  (store', if decide (0 < created) then S import_count else import_count).

(** Returns the store and the [import_count] it prints. *)
Definition ingest_imports (imports : list ImportRelation) (store : FileStore)
  : FileStore * nat :=
  match imports with
  | [] => (store, 0)
  | _ => foldl ingest_import (store, 0) imports
  end.

(** ** Ingestion of files and import edges *)

Lemma ingest_files_spec (files : list FileNode) (store : FileStore) :
  file_nodes (ingest_files files store) =
    file_nodes store ∪ list_to_set (relative_path <$> files)
  ∧ imports_edges (ingest_files files store) = imports_edges store.
Proof.
  assert (H : ∀ l s,
    file_nodes (foldl (λ s file_node,
                  mkFileStore ({[ relative_path file_node ]} ∪ file_nodes s)
                    (imports_edges s)) s l)
      = file_nodes s ∪ list_to_set (relative_path <$> l)
    ∧ imports_edges (foldl (λ s file_node,
                  mkFileStore ({[ relative_path file_node ]} ∪ file_nodes s)
                    (imports_edges s)) s l)
      = imports_edges s).
  { induction l as [|f l IH]; intros s; simpl.
    - split; [set_solver|done].
    - destruct (IH (mkFileStore ({[ relative_path f ]} ∪ file_nodes s)
                      (imports_edges s))) as [-> ->].
      simpl. split; [set_solver|done]. }
  destruct files as [|f l]; [simpl; split; [set_solver|done]|apply H].
Qed.

Lemma ingest_import_spec (store : FileStore) (n : nat) (imp : ImportRelation) :
  file_nodes (ingest_import (store, n) imp).1 = file_nodes store
  ∧ ∀ e, e ∈ imports_edges (ingest_import (store, n) imp).1 ↔
         e ∈ imports_edges store
         ∨ (e = (from_file imp, to_file imp, import_name imp)
            ∧ from_file imp ∈ file_nodes store
            ∧ to_file imp ∈ file_nodes store).
Proof.
  unfold ingest_import, run_imports_query.
  case_decide as Hn; simpl; (split; [done|]); intros e.
  - rewrite elem_of_union, elem_of_singleton. destruct Hn. split.
    + intros [->|?]; [by right|by left].
    + intros [?|(-> & _)]; [by right|by left].
  - split; [by left|]. intros [?|(_ & ? & ?)]; [done|]. by destruct Hn.
Qed.

Lemma ingest_imports_spec (imports : list ImportRelation) (store : FileStore) :
  file_nodes (ingest_imports imports store).1 = file_nodes store
  ∧ ∀ e, e ∈ imports_edges (ingest_imports imports store).1 ↔
         e ∈ imports_edges store
         ∨ ∃ imp, imp ∈ imports
             ∧ e = (from_file imp, to_file imp, import_name imp)
             ∧ from_file imp ∈ file_nodes store
             ∧ to_file imp ∈ file_nodes store.
Proof.
  assert (H : ∀ l s n,
    file_nodes (foldl ingest_import (s, n) l).1 = file_nodes s
    ∧ ∀ e, e ∈ imports_edges (foldl ingest_import (s, n) l).1 ↔
           e ∈ imports_edges s
           ∨ ∃ imp, imp ∈ l
               ∧ e = (from_file imp, to_file imp, import_name imp)
               ∧ from_file imp ∈ file_nodes s
               ∧ to_file imp ∈ file_nodes s).
  { induction l as [|imp l IH]; intros s n.
    - split; [done|]. intros e. split; [by left|].
      by intros [?|(imp & ?%elem_of_nil & _)].
    - cbn [foldl]. destruct (ingest_import (s, n) imp) as [s' n'] eqn:Hi.
      destruct (ingest_import_spec s n imp) as [Hn He]. rewrite Hi in Hn, He.
      simpl in Hn, He. destruct (IH s' n') as [IHn IHe].
      split; [congruence|]. intros e. rewrite IHe, He, Hn. split.
      + intros [[?|(? & ? & ?)]|(imp' & ? & ?)]; [by left|right|right].
        * exists imp. split; [left|done].
        * exists imp'. split; [by right|done].
      + intros [?|(imp' & [->|?]%elem_of_cons & ?)]; [by left; left|by left; right|].
        right. by exists imp'. }
  destruct imports as [|imp l]; [|apply H].
  split; [done|]. intros e. split; [by left|].
  by intros [?|(imp & ?%elem_of_nil & _)].
Qed.

(** X16. An import edge becomes a relationship exactly when both its ends
    are File nodes of the store: an edge whose guessed [to_file] names no
    File node is dropped without a trace, and ingesting import edges never
    creates a File node. *)
Theorem ingest_imports_needs_both_files (imports : list ImportRelation)
    (store : FileStore) :
  let after := (ingest_imports imports store).1 in
  file_nodes after = file_nodes store
  ∧ ∀ a b name,
      (a, b, name) ∈ imports_edges after ↔
      (a, b, name) ∈ imports_edges store
      ∨ (mkImportRelation a b name ∈ imports
         ∧ a ∈ file_nodes store ∧ b ∈ file_nodes store).
Proof.
  intros after. destruct (ingest_imports_spec imports store) as [Hn He].
  split; [done|]. intros a b name. fold after in He. rewrite He. split.
  - intros [?|(imp & Himp & [= -> -> ->] & ? & ?)]; [by left|].
    right. by destruct imp.
  - intros [?|(Himp & ? & ?)]; [by left|]. right.
    by exists (mkImportRelation a b name).
Qed.

Example ingest_imports_drops_unknown_target :
  let store := ingest_files [mkFileNode "/srv/repo/a.py" "a.py";
                             mkFileNode "/srv/repo/pkg/b.py" "pkg/b.py"]
                 (mkFileStore ∅ ∅) in
  let result :=
    ingest_imports [mkImportRelation "a.py" "pkg/b.py" "pkg.b";
                    mkImportRelation "a.py" "os.py" "os"] store in
  result.2 = 1
  ∧ ("a.py", "pkg/b.py", "pkg.b") ∈ imports_edges result.1
  ∧ ("a.py", "os.py", "os") ∉ imports_edges result.1.
Proof.
  intros store result. split; [by vm_compute|].
  destruct (ingest_imports_spec
              [mkImportRelation "a.py" "pkg/b.py" "pkg.b";
               mkImportRelation "a.py" "os.py" "os"] store) as [_ He].
  fold result in He.
  destruct (ingest_files_spec
              [mkFileNode "/srv/repo/a.py" "a.py";
               mkFileNode "/srv/repo/pkg/b.py" "pkg/b.py"] (mkFileStore ∅ ∅))
    as [Hn Hi].
  fold store in Hn, Hi.
  assert (Hnode : ∀ x, x ∈ file_nodes store ↔ x = "a.py" ∨ x = "pkg/b.py").
  { intros x. rewrite Hn. simpl. set_solver. }
  split.
  - apply He. right. exists (mkImportRelation "a.py" "pkg/b.py" "pkg.b").
    split; [left|]. split; [done|]. split; apply Hnode; auto.
  - intros [Hin|(imp & Himp & Heq & _ & Hto)]%He.
    + rewrite Hi in Hin. by apply not_elem_of_empty in Hin.
    + injection Heq as _ Hb _. rewrite <- Hb in Hto.
      by apply Hnode in Hto as [?|?].
Qed.

Lemma run_import_sources (repo_path : Path) (read_text : Path → option string)
    (ast_parse : string → option node)
    (visitor_overflows : node → bool) (l : list Path) (imp : ImportRelation) :
  let data := (parse_repository repo_path read_text ast_parse visitor_overflows l).1 in
  imp ∈ imports data → ∃ f, f ∈ files data ∧ relative_path f = from_file imp.
Proof.
  intros data. unfold data, parse_repository.
  destruct (parse_files_sequences repo_path read_text ast_parse visitor_overflows l empty_data 0)
    as (-> & _ & ->).
  cbn [empty_data files imports app].
  intros (p & Hi & Hp)%list_elem_of_bind. unfold file_imports in Hi.
  destruct (parsed_tree read_text ast_parse p) as [t|] eqn:Ht;
    [|by apply elem_of_nil in Hi].
  destruct (parse_imports t (get_relative_path repo_path p)) as [fi|] eqn:Hfi;
    [|by apply elem_of_nil in Hi].
  simpl in Hi. eexists. split.
  - apply list_elem_of_bind. exists p. split; [|done].
    unfold file_node_of. rewrite Ht. by left.
  - simpl. symmetry. by eapply parse_imports_from_file.
Qed.

(** X17. After a run, ingesting its files and then its import edges, the
    source of an import edge is always a File node, so the edge becomes a
    relationship exactly when its [to_file] is the relative path of a file
    of the aggregate or of a File node that was in the store before. *)
Theorem imports_of_a_run (repo_path : Path)
    (read_text : Path → option string) (ast_parse : string → option node)
    (visitor_overflows : node → bool)
    (find_python_files : list Path) (store : FileStore) :
  let data :=
    (parse_repository repo_path read_text ast_parse visitor_overflows find_python_files).1 in
  let after :=
    (ingest_imports (imports data) (ingest_files (files data) store)).1 in
  file_nodes after =
    file_nodes store ∪ list_to_set (relative_path <$> files data)
  ∧ ∀ a b name,
      (a, b, name) ∈ imports_edges after ↔
      (a, b, name) ∈ imports_edges store
      ∨ (mkImportRelation a b name ∈ imports data
         ∧ (b ∈ file_nodes store
            ∨ ∃ f, f ∈ files data ∧ relative_path f = b)).
Proof.
  intros data after.
  destruct (ingest_files_spec (files data) store) as [Hfn Hfe].
  destruct (ingest_imports_spec (imports data)
              (ingest_files (files data) store)) as [Hn He].
  fold after in Hn, He. split; [by rewrite Hn|].
  assert (Hnode : ∀ x, x ∈ file_nodes (ingest_files (files data) store) ↔
            x ∈ file_nodes store ∨ ∃ f, f ∈ files data ∧ relative_path f = x).
  { intros x. rewrite Hfn, elem_of_union, elem_of_list_to_set, list_elem_of_fmap.
    split; (intros [?|(f & ? & ?)]; [by left|right; by exists f]). }
  intros a b name. rewrite He, Hfe. split.
  - intros [?|(imp & Himp & [= -> -> ->] & _ & Hb%Hnode)]; [by left|].
    right. split; [by destruct imp|done].
  - intros [?|(Himp & Hb)]; [by left|]. right.
    exists (mkImportRelation a b name). split; [done|]. split; [done|].
    split; [|by apply Hnode]. apply Hnode. right.
    destruct (run_import_sources repo_path read_text ast_parse visitor_overflows
                find_python_files _ Himp) as (f & Hf & Hrel).
    by exists f.
Qed.

(** ** Identity of the entities *)

Lemma string_app_nil_l (s : string) : EmptyString +:+ s = s.
Proof. reflexivity. Qed.

Ltac expose_append H :=
  repeat (rewrite string_app_cons in H || rewrite string_app_nil_l in H).

Lemma separator_in_name (b n m : string) :
  contains ":" n = false → String ":" n ≠ b +:+ "::" +:+ m.
Proof.
  intros Hn Heq. destruct b as [|y b]; expose_append Heq.
  - injection Heq as Heq. rewrite Heq in Hn. done.
  - injection Heq as _ Heq. rewrite Heq, contains_app in Hn.
    simpl in Hn. by rewrite orb_true_r in Hn.
Qed.

Lemma id_scheme_unambiguous (a b n1 n2 : string) :
  contains ":" n1 = false → contains ":" n2 = false →
  a +:+ "::" +:+ n1 = b +:+ "::" +:+ n2 → a = b ∧ n1 = n2.
Proof.
  intros H1 H2. revert b. induction a as [|x a IH]; intros b Heq.
  - destruct b as [|y b]; expose_append Heq; [by injection Heq|].
    injection Heq as _ Heq. by apply separator_in_name in Heq.
  - destruct b as [|y b]; expose_append Heq.
    + injection Heq as _ Heq. symmetry in Heq.
      by apply separator_in_name in Heq.
    + injection Heq as -> Heq. destruct (IH _ Heq) as [-> ->]. done.
Qed.

(** X18. In the aggregate of a run the id of a function is its file,
    a double colon, its name; so two function entities whose names hold no
    colon share an id exactly when they share the file and the name. Two
    declarations of one name in one file, at whatever depth, collide; no
    others do. *)
Theorem function_ids_collide_only_within_a_file (repo_path : Path)
    (read_text : Path → option string) (ast_parse : string → option node)
    (visitor_overflows : node → bool)
    (find_python_files : list Path) (f1 f2 : FunctionNode) :
  let data :=
    (parse_repository repo_path read_text ast_parse visitor_overflows find_python_files).1 in
  f1 ∈ functions data → f2 ∈ functions data →
  contains ":" (fn_name f1) = false → contains ":" (fn_name f2) = false →
  fn_id f1 = fn_file_path f1 +:+ "::" +:+ fn_name f1
  ∧ (fn_id f1 = fn_id f2 ↔
     fn_file_path f1 = fn_file_path f2 ∧ fn_name f1 = fn_name f2).
Proof.
  intros data. unfold data, parse_repository.
  destruct (parse_files_functions repo_path read_text ast_parse visitor_overflows
              find_python_files empty_data 0) as (-> & _).
  cbn [empty_data functions app].
  intros (p1 & (t1 & d1 & _ & _ & Hf1)%file_functions_elem & _)%list_elem_of_bind.
  intros (p2 & (t2 & d2 & _ & _ & Hf2)%file_functions_elem & _)%list_elem_of_bind.
  apply function_node_of_spec in Hf1 as (_ & Hid1 & Hpath1).
  apply function_node_of_spec in Hf2 as (_ & Hid2 & Hpath2).
  intros Hn1 Hn2. rewrite Hid1, Hid2, Hpath1, Hpath2. unfold function_id.
  split; [done|]. split.
  - by apply id_scheme_unambiguous.
  - by intros [-> ->].
Qed.

Lemma function_ids_collide_only_within_a_file_witness :
  let data :=
    (parse_repository sample_repo sample_read_text sample_ast_parse sample_visitor_overflows
       [sample_repo ++ ["x.py"]; sample_repo ++ ["y.py"]]).1 in
  let f1 := mkFunctionNode "x.py::dup" "dup" "x.py" 1 in
  let f2 := mkFunctionNode "y.py::dup" "dup" "y.py" 1 in
  fn_id f1 = fn_file_path f1 +:+ "::" +:+ fn_name f1
  ∧ (fn_id f1 = fn_id f2 ↔
     fn_file_path f1 = fn_file_path f2 ∧ fn_name f1 = fn_name f2).
Proof.
  apply (function_ids_collide_only_within_a_file sample_repo sample_read_text
           sample_ast_parse sample_visitor_overflows [sample_repo ++ ["x.py"]; sample_repo ++ ["y.py"]]).
  - vm_compute. repeat constructor.
  - vm_compute. repeat constructor.
  - reflexivity.
  - reflexivity.
Defined.

Lemma file_nodes_sublist (repo_path : Path) (read_text : Path → option string)
    (ast_parse : string → option node) (l : list Path) :
  (relative_path <$> (l ≫= file_node_of repo_path read_text ast_parse))
    `sublist_of` (get_relative_path repo_path <$> l).
Proof.
  induction l as [|p l IH]; [done|].
  rewrite bind_cons, fmap_app, fmap_cons. unfold file_node_of at 1.
  destruct (parsed_tree read_text ast_parse p); simpl.
  - by apply sublist_skip.
  - by apply sublist_cons.
Qed.

(** X19. Discovery followed by a run gives every file entity its own key:
    when the listings of the tree name each entry once and no name holds a
    separator, the relative paths of the files of the aggregate are
    pairwise distinct. *)
Theorem file_keys_are_unique (repo_path : Path) (tree : fs_dir)
    (read_text : Path → option string) (ast_parse : string → option node)
    (visitor_overflows : node → bool) :
  listing_ok tree →
  (∀ parts, discovered tree parts →
     Forall (λ part, contains sep part = false) parts) →
  let data :=
    (parse_repository repo_path read_text ast_parse visitor_overflows
       (find_python_files repo_path tree)).1 in
  NoDup (relative_path <$> files data).
Proof.
  intros Hok Hsep data. unfold data, parse_repository.
  destruct (parse_files_sequences repo_path read_text ast_parse visitor_overflows
              (find_python_files repo_path tree) empty_data 0) as (-> & _).
  cbn [empty_data files app].
  eapply sublist_NoDup; [|apply file_nodes_sublist].
  apply NoDup_fmap_2_strong; [|by apply walk_python_files_NoDup].
  intros p q (parts & -> & Hp)%walk_python_files_elem
    (parts' & -> & Hq)%walk_python_files_elem Heq.
  f_equal.
  rewrite !get_relative_path_below in Heq. unfold str_relative in Heq.
  pose proof (Hsep _ Hp) as Hs. pose proof (Hsep _ Hq) as Hs'.
  destruct parts as [|a l]; [by apply discovered_not_nil in Hp|].
  destruct parts' as [|a' l']; [by apply discovered_not_nil in Hq|].
  pose proof (split_join_with sep (a :: l) ltac:(done) Hs) as Hl.
  pose proof (split_join_with sep (a' :: l') ltac:(done) Hs') as Hl'.
  unfold sep in Hl, Hl'. congruence.
Qed.

Lemma sample_fs_names (parts : list string) :
  discovered sample_fs parts →
  Forall (λ part, contains sep part = false) parts.
Proof.
  intros H.
  assert (Hin : parts ∈ walk_python_files [] sample_fs).
  { apply walk_python_files_elem. by exists parts. }
  vm_compute in Hin.
  repeat (apply elem_of_cons in Hin as [->|Hin]; [by repeat constructor|]).
  by apply elem_of_nil in Hin.
Qed.

Lemma file_keys_are_unique_witness :
  NoDup (relative_path <$>
           files (parse_repository sample_repo sample_read_text sample_ast_parse sample_visitor_overflows
                    (find_python_files sample_repo sample_fs)).1).
Proof.
  apply (file_keys_are_unique sample_repo sample_fs sample_read_text
           sample_ast_parse sample_visitor_overflows).
  - exact sample_fs_listing_ok.
  - exact sample_fs_names.
Defined.

(** ** config.py and main.py: the way into the pipeline

    [Config] holds what the environment gave when the module was loaded.
    The printing is left out; what stays is which branch is taken and with
    which connection parameters the pipeline runs. *)
Record Config := mkConfig {
  NEO4J_URI : string;
  NEO4J_USERNAME : string;
  NEO4J_PASSWORD : string }.

(** The values [Config] falls back to when the environment is silent. *)
Definition default_config : Config :=
  mkConfig "neo4j+s://your-aura-id.databases.neo4j.io" "neo4j" "your-password".

Definition validate_config (cfg : Config) : bool :=
  if str_endswith "your-aura-id.databases.neo4j.io" (NEO4J_URI cfg) then false
  else if String.eqb (NEO4J_PASSWORD cfg) "your-password" then false
  else true.

(** The parsed command line. *)
Record Args := mkArgs {
  args_repo_path : string;
  args_uri : option string;
  args_username : option string;
  args_password : option string;
  args_config_check : bool }.

(** [x or y] for an optional string [x]. *)
Definition or_else (x : option string) (y : string) : string :=
  if opt_truthy x then default EmptyString x else y.

(** How a call of [main] ends: after the configuration check, at a missing
    path, at an invalid configuration, after the pipeline, or with
    [sys.exit(1)] when the pipeline raised. *)
Inductive outcome : Type :=
| ConfigChecked (valid : bool)
| PathMissing
| ConfigRejected
| Ingested
| Exit1.

Section Main.
(** [os.path.exists], and the body of the [try] of [ingest_repo]: parsing
    the repository at the path and ingesting it with the connection
    parameters; [false] when it raises. *)
Variable path_exists : string → bool.
Variable pipeline : string → string → string * string → bool.

Definition ingest_repo (cfg : Config) (repo_path : string)
    (neo4j_uri : option string) (neo4j_auth : option (string * string))
  : outcome :=
  if negb (path_exists repo_path) then PathMissing
  else
    let neo4j_uri := default (NEO4J_URI cfg) neo4j_uri in
    let neo4j_auth :=
      default (NEO4J_USERNAME cfg, NEO4J_PASSWORD cfg) neo4j_auth in
    if negb (validate_config cfg) then ConfigRejected
    else if pipeline repo_path neo4j_uri neo4j_auth then Ingested else Exit1.

Definition main (cfg : Config) (args : Args) : outcome :=
  if args_config_check args then ConfigChecked (validate_config cfg)
  else
    let neo4j_uri := or_else (args_uri args) (NEO4J_URI cfg) in
    let neo4j_username := or_else (args_username args) (NEO4J_USERNAME cfg) in
    let neo4j_password := or_else (args_password args) (NEO4J_PASSWORD cfg) in
    ingest_repo cfg (args_repo_path args) (Some neo4j_uri)
      (Some (neo4j_username, neo4j_password)).
End Main.

Lemma validate_config_spec (cfg : Config) :
  validate_config cfg = true ↔
  (¬ ∃ stem, NEO4J_URI cfg = stem +:+ "your-aura-id.databases.neo4j.io")
  ∧ NEO4J_PASSWORD cfg ≠ "your-password".
Proof.
  unfold validate_config.
  destruct (str_endswith _ (NEO4J_URI cfg)) eqn:Hu.
  - apply str_endswith_spec in Hu. split; [done|]. by intros [[] _].
  - destruct (String.eqb_spec (NEO4J_PASSWORD cfg) "your-password") as [Hp|Hp].
    + split; [done|]. by intros [_ []].
    + split; [|done]. intros _. split; [|done].
      intros Hs%str_endswith_spec. congruence.
Qed.

(** X20. The check that opens the pipeline looks at the environment
    configuration only. When the environment still holds the placeholder
    host or password, [main] ends before the pipeline whatever connection
    parameters the command line gives; the pipeline is never called. When
    the environment configuration is valid and the path exists, the pipeline
    runs with each command-line value that is given and not empty, the
    environment value otherwise, and [main] exits with 1 exactly when it
    raises. *)
Theorem command_line_does_not_validate (path_exists : string → bool)
    (pipeline : string → string → string * string → bool)
    (cfg : Config) (args : Args) :
  args_config_check args = false →
  validate_config default_config = false
  ∧ (validate_config cfg = false →
     main path_exists pipeline cfg args =
     if path_exists (args_repo_path args) then ConfigRejected else PathMissing)
  ∧ (validate_config cfg = true → path_exists (args_repo_path args) = true →
     main path_exists pipeline cfg args =
     if pipeline (args_repo_path args)
          (or_else (args_uri args) (NEO4J_URI cfg))
          (or_else (args_username args) (NEO4J_USERNAME cfg),
           or_else (args_password args) (NEO4J_PASSWORD cfg))
     then Ingested else Exit1).
Proof.
  intros Hcheck. unfold main, ingest_repo. rewrite Hcheck.
  split; [by vm_compute|]. split.
  - intros ->. by destruct (path_exists _).
  - by intros -> ->.
Qed.

Lemma command_line_does_not_validate_witness :
  main (λ _, true) (λ _ _ _, true) default_config
    (mkArgs "/srv/repo" (Some "neo4j+s://abc123.databases.neo4j.io")
       None (Some "secret") false) = ConfigRejected.
Proof.
  apply (proj1 (proj2 (command_line_does_not_validate (λ _, true) (λ _ _ _, true)
                         default_config
                         (mkArgs "/srv/repo"
                            (Some "neo4j+s://abc123.databases.neo4j.io")
                            None (Some "secret") false) eq_refl))).
  reflexivity.
Defined.

(** ** Domain of the name table *)

(** X21. After a run the keys of the table are exactly the names of the
    functions of the aggregate: every declared function can be looked up by
    its bare name, and what the lookup gives is the id of some function of
    that name. *)
Theorem every_function_name_resolves (repo_path : Path)
    (read_text : Path → option string) (ast_parse : string → option node)
    (visitor_overflows : node → bool)
    (find_python_files : list Path) (name : string) :
  let data :=
    (parse_repository repo_path read_text ast_parse visitor_overflows find_python_files).1 in
  is_Some (function_map data !! name) ↔
  ∃ f, f ∈ functions data ∧ fn_name f = name.
Proof.
  intros data. unfold data, parse_repository.
  destruct (parse_files_functions repo_path read_text ast_parse visitor_overflows
              find_python_files empty_data 0) as (-> & ->).
  cbn [empty_data functions function_map app].
  rewrite record_functions_lookup, lookup_empty. split.
  - destruct (last _) as [f|] eqn:Hl; [|by intros [? ?]]. intros _.
    apply last_Some_elem_of, list_elem_of_filter in Hl as [Hname Hf].
    by exists f.
  - intros (f & Hf & Hname).
    destruct (last _) as [g|] eqn:Hl; [done|]. apply last_None in Hl.
    assert (Hin : f ∈ filter (λ f, fn_name f = name)
              (find_python_files ≫= file_functions repo_path read_text ast_parse)).
    { by apply list_elem_of_filter. }
    rewrite Hl in Hin. by apply elem_of_nil in Hin.
Qed.
